(** * Ravenfall lexer: a shallow embedding of [ravenfall/frontend/lexer.py]

    The file follows the source top to bottom: [TokenType], [KEYWORDS],
    [Token], then [tokenize] with its local [token_map], its four local
    variables and its main [while chars:] loop.  Python's [str] is a
    sequence of Unicode code points; a character is modelled by its code
    point and a string by the list of its characters.  The character
    predicates [str.isalpha], [str.isnumeric] and [str.isalnum] belong to
    the Python runtime, not to this repository: they are taken as a
    parameter ([Unicode]) that fixes them on the ASCII range only. *)

From Stdlib Require Import Ascii String List ZArith NArith Bool Lia.
Import ListNotations.

Local Open Scope Z_scope.

(** ** Characters and strings *)

Definition char : Type := N.
Definition str : Type := list char.

Definition ord (a : ascii) : char := N_of_ascii a.
Definition chars_of (s : string) : str := map ord (list_ascii_of_string s).

Definition SPACE : char := ord " ".
Definition NL : char := 10%N.
Definition SQUOTE : char := ord "'".
Definition DQUOTE : char := 34%N.
Definition PERIOD_CHAR : char := ord ".".
Definition UNDERSCORE : char := ord "_".

Definition str_eqb (a b : str) : bool :=
  if list_eq_dec N.eq_dec a b then true else false.

(** The two ASCII ranges on which Python's predicates are fixed. *)
Definition ascii_letter (c : char) : bool :=
  ((65 <=? c) && (c <=? 90) || (97 <=? c) && (c <=? 122))%N.
Definition ascii_digit (c : char) : bool :=
  ((48 <=? c) && (c <=? 57))%N.

(** The part of the Unicode character database that [tokenize] consults
    through [str.isalpha], [str.isnumeric] and [str.isalnum].  Below code
    point 128 the predicates are the ASCII ones; above it they are left
    open. *)
Record Unicode : Type := mkUnicode {
  isalpha : char -> bool;
  isdecimal : char -> bool;
  isdigit : char -> bool;
  isnumeric : char -> bool;
  isalpha_ascii : forall c, (c < 128)%N -> isalpha c = ascii_letter c;
  isdecimal_ascii : forall c, (c < 128)%N -> isdecimal c = ascii_digit c;
  isdigit_ascii : forall c, (c < 128)%N -> isdigit c = ascii_digit c;
  isnumeric_ascii : forall c, (c < 128)%N -> isnumeric c = ascii_digit c
}.

(** [str.isalnum]: true when one of [isalpha], [isdecimal], [isdigit],
    [isnumeric] is. *)
Definition isalnum (U : Unicode) (c : char) : bool :=
  isalpha U c || isdecimal U c || isdigit U c || isnumeric U c.

(** A database that knows the ASCII letters and digits and nothing else;
    it agrees with any other one on ASCII text. *)
Definition ascii_only : Unicode :=
  mkUnicode ascii_letter ascii_digit ascii_digit ascii_digit
            (fun _ _ => eq_refl) (fun _ _ => eq_refl)
            (fun _ _ => eq_refl) (fun _ _ => eq_refl).

(** ** Tokens *)

Inductive TokenType : Type :=
| INT | FLOAT | STRING | BOOLEAN
| EQUALS | ADD | SUBTRACT | MULTIPLY | DIVIDE | MODULO
| OPEN_PAREN | CLOSE_PAREN | OPEN_BRACE | CLOSE_BRACE
| OPEN_BRACKET | CLOSE_BRACKET
| PERIOD | COMMA | COLON
| INDENT | DEDENT | NEWLINE
| IDENTIFIER | LET | MUT | EOF.

Definition TokenType_eq_dec (a b : TokenType) : {a = b} + {a <> b}.
Proof. decide equality. Defined.

Definition type_eqb (a b : TokenType) : bool :=
  if TokenType_eq_dec a b then true else false.

(** [KEYWORDS.get(value)] *)
Definition KEYWORDS (value : str) : option TokenType :=
  if str_eqb value (chars_of "let") then Some LET
  else if str_eqb value (chars_of "mut") then Some MUT
  else None.

Record Token : Type := mkToken { value : str; type : TokenType }.

(** The local dictionary [token_map] of [tokenize]. *)
Definition token_map (c : char) : option TokenType :=
  if (c =? ord "=")%N then Some EQUALS
  else if (c =? ord "+")%N then Some ADD
  else if (c =? ord "-")%N then Some SUBTRACT
  else if (c =? ord "*")%N then Some MULTIPLY
  else if (c =? ord "/")%N then Some DIVIDE
  else if (c =? ord "%")%N then Some MODULO
  else if (c =? ord ".")%N then Some PERIOD
  else if (c =? ord ",")%N then Some COMMA
  else if (c =? ord ":")%N then Some COLON
  else if (c =? ord "(")%N then Some OPEN_PAREN
  else if (c =? ord ")")%N then Some CLOSE_PAREN
  else if (c =? ord "{")%N then Some OPEN_BRACE
  else if (c =? ord "}")%N then Some CLOSE_BRACE
  else if (c =? ord "[")%N then Some OPEN_BRACKET
  else if (c =? ord "]")%N then Some CLOSE_BRACKET
  else None.

Definition is_open_bracket (c : char) : bool :=
  ((c =? ord "(") || (c =? ord "{") || (c =? ord "["))%N.
Definition is_close_bracket (c : char) : bool :=
  ((c =? ord ")") || (c =? ord "}") || (c =? ord "]"))%N.

(** ** Outcomes

    [tokenize] returns, or raises one of three exceptions: the
    [IndentationError] of the indentation check, the generic [Exception]
    for an unrecognized character, and the [IndexError] of [chars[0]] on
    an empty list.  [OutOfFuel] is the model's own outcome for a loop cut
    short; the termination theorems show that it never comes out. *)

Inductive exn : Type :=
| IndentationError
| UnrecognizedCharacter (c : char)
| IndexError.

Inductive result (A : Type) : Type :=
| Ok (a : A)
| Raise (e : exn)
| OutOfFuel.
Arguments Ok {A} a.
Arguments Raise {A} e.
Arguments OutOfFuel {A}.

Definition bind {A B : Type} (r : result A) (k : A -> result B) : result B :=
  match r with
  | Ok a => k a
  | Raise e => Raise e
  | OutOfFuel => OutOfFuel
  end.

Notation "x <- r ;; k" := (bind r (fun x => k))
  (at level 61, r at next level, right associativity).
Notation "' p <- r ;; k" := (bind r (fun x => let 'p := x in k))
  (at level 61, p pattern, r at next level, right associativity).

(** ** The scanner state: the four locals of [tokenize] *)

Record State : Type := mkState {
  chars : list char;
  any_bracket_level : Z;
  last_indent_level : Z;
  token_stream : list Token
}.

Definition init (source_code : str) : State := mkState source_code 0 0 [].

(** ** The inner loops *)

(** [while chars[:4] == [' ',]*4: del chars[:4]; indent_level += 1] *)
Fixpoint scan_indent (indent_level : Z) (cs : list char) : Z * list char :=
  match cs with
  | a :: b :: c :: d :: rest =>
      if ((a =? SPACE) && (b =? SPACE) && (c =? SPACE) && (d =? SPACE))%N
      then scan_indent (indent_level + 1) rest
      else (indent_level, cs)
  | _ => (indent_level, cs)
  end.

(** [while indent_level < last_indent_level: last_indent_level -= 1;
    token_stream.append(Token('', DEDENT))], bounded by [fuel] rounds;
    [newline_mode] gives it the distance between the two levels. *)
Fixpoint dedent_loop (fuel : nat) (indent_level last : Z) (ts : list Token)
  : result (Z * list Token) :=
  if indent_level <? last then
    match fuel with
    | O => OutOfFuel
    | S fuel' =>
        dedent_loop fuel' indent_level (last - 1) (ts ++ [mkToken [] DEDENT])
    end
  else Ok (last, ts).

(** [while chars[0] != quote_type: full_string.append(chars.pop(0))];
    [chars[0]] on the empty list raises [IndexError]. *)
Fixpoint scan_string (quote_type : char) (full_string : str) (cs : list char)
  : result (str * list char) :=
  match cs with
  | [] => Raise IndexError
  | c :: rest =>
      if negb (c =? quote_type)%N
      then scan_string quote_type (full_string ++ [c]) rest
      else Ok (full_string, cs)
  end.

(** The number loop, with its [break] on a second period. *)
Fixpoint scan_number (U : Unicode) (period_found : bool) (full_number : str)
  (cs : list char) : str * bool * list char :=
  match cs with
  | [] => (full_number, period_found, cs)
  | c :: rest =>
      if isnumeric U c || (c =? PERIOD_CHAR)%N then
        if period_found && negb (isnumeric U c)
        then (full_number, period_found, cs)
        else scan_number U
               (if (c =? PERIOD_CHAR)%N then true else period_found)
               (full_number ++ [c]) rest
      else (full_number, period_found, cs)
  end.

(** [while chars and (chars[0].isalnum() or chars[0] in '_')] *)
Fixpoint scan_word (U : Unicode) (full_value : str) (cs : list char)
  : str * list char :=
  match cs with
  | [] => (full_value, cs)
  | c :: rest =>
      if isalnum U c || (c =? UNDERSCORE)%N
      then scan_word U (full_value ++ [c]) rest
      else (full_value, cs)
  end.

(** ** One iteration of the main loop *)

Definition newline_mode (st : State) (newline : char) (rest : list char)
  : result State :=
  let '(indent_level, cs) := scan_indent 0 rest in
  if any_bracket_level st >? 0 then
    Ok (mkState cs (any_bracket_level st) (last_indent_level st)
          (token_stream st))
  else
    let ts := token_stream st ++ [mkToken [newline] NEWLINE] in
    '(last, ts) <-
      (if indent_level >? last_indent_level st then
         let too_much_indent :=
           negb (last_indent_level st - indent_level =? -1) in
         if too_much_indent then Raise IndentationError
         else Ok (indent_level, ts ++ [mkToken [] INDENT])
       else Ok (last_indent_level st, ts)) ;;
    '(last, ts) <-
      dedent_loop (Z.to_nat (last - indent_level)) indent_level last ts ;;
    Ok (mkState cs (any_bracket_level st) last ts).

Definition string_mode (st : State) (quote_type : char) (rest : list char)
  : result State :=
  '(full_string, cs) <- scan_string quote_type [] rest ;;
  match cs with
  | [] => Raise IndexError
  | _ :: cs' =>
      Ok (mkState cs' (any_bracket_level st) (last_indent_level st)
            (token_stream st ++ [mkToken full_string STRING]))
  end.

Definition symbol_mode (st : State) (c : char) (ty : TokenType)
  (rest : list char) : result State :=
  let level :=
    if is_open_bracket c then any_bracket_level st + 1
    else if is_close_bracket c then any_bracket_level st - 1
    else any_bracket_level st in
  Ok (mkState rest level (last_indent_level st)
        (token_stream st ++ [mkToken [c] ty])).

Definition number_mode (U : Unicode) (st : State) : result State :=
  let '(full_number, period_found, cs) := scan_number U false [] (chars st) in
  Ok (mkState cs (any_bracket_level st) (last_indent_level st)
        (token_stream st ++
           [mkToken full_number (if period_found then FLOAT else INT)])).

Definition word_mode (U : Unicode) (st : State) : result State :=
  let '(value, cs) := scan_word U [] (chars st) in
  let emit ty :=
    Ok (mkState cs (any_bracket_level st) (last_indent_level st)
          (token_stream st ++ [mkToken value ty])) in
  if str_eqb value (chars_of "true") || str_eqb value (chars_of "false")
  then emit BOOLEAN
  else
    match KEYWORDS value with
    | Some reserved => emit reserved
    | None => emit IDENTIFIER
    end.

(** The body of [while chars:], run on a state whose [chars] is not
    empty. *)
Definition body (U : Unicode) (st : State) : result State :=
  match chars st with
  | [] => Ok st
  | c :: rest =>
      if (c =? SPACE)%N then
        Ok (mkState rest (any_bracket_level st) (last_indent_level st)
              (token_stream st))
      else if (c =? NL)%N then newline_mode st c rest
      else if ((c =? SQUOTE) || (c =? DQUOTE))%N then string_mode st c rest
      else
        match token_map c with
        | Some ty => symbol_mode st c ty rest
        | None =>
            if isnumeric U c then number_mode U st
            else if isalpha U c then word_mode U st
            else Raise (UnrecognizedCharacter c)
        end
  end.

(** ** The main loop and [tokenize] *)

Fixpoint loop (U : Unicode) (fuel : nat) (st : State) : result State :=
  match chars st with
  | [] => Ok st
  | _ :: _ =>
      match fuel with
      | O => OutOfFuel
      | S fuel' => st' <- body U st ;; loop U fuel' st'
      end
  end.

(** The state in which the main loop stops.  The loop is given one
    round for each character of the input. *)
Definition final_state (U : Unicode) (source_code : str) : result State :=
  loop U (length source_code) (init source_code).

Definition EOF_token : Token := mkToken [] EOF.

Definition tokenize (U : Unicode) (source_code : str) : result (list Token) :=
  st <- final_state U source_code ;;
  Ok (token_stream st ++ [EOF_token]).

(** ** Vocabulary of the theorems

    What the scan modes append, what an iteration does to the state, the
    states the main loop passes through, and the words and runs that the
    specification speaks of. *)

(** The shape of every token a scan mode can append: never [EOF]; the
    synthetic [INDENT] and [DEDENT] carry the empty string, [NEWLINE]
    carries the newline character it was made from. *)
Definition scanned_ok (t : Token) : bool :=
  match type t with
  | EOF => false
  | INDENT | DEDENT => str_eqb (value t) []
  | NEWLINE => str_eqb (value t) [NL]
  | _ => true
  end.

(** Number of tokens of a given type. *)
Definition count (ty : TokenType) (ts : list Token) : Z :=
  Z.of_nat (length (filter (fun t => type_eqb (type t) ty) ts)).

(** Number of [INDENT] tokens minus number of [DEDENT] tokens. *)
Definition indent_balance (ts : list Token) : Z :=
  count INDENT ts - count DEDENT ts.

(** From [st] to [st']: the characters [pre] were consumed and the
    tokens [new] appended. *)
Record effect (st st' : State) (pre : list char) (new : list Token) : Prop :=
  mkEffect {
    eff_chars : chars st = pre ++ chars st';
    eff_tokens : token_stream st' = token_stream st ++ new;
    eff_ok : forallb scanned_ok new = true;
    eff_balance :
      indent_balance new = last_indent_level st' - last_indent_level st
  }.

(** States that the main loop passes through. *)
Inductive reaches (U : Unicode) : State -> State -> Prop :=
| reaches_here (st : State) : reaches U st st
| reaches_step (st st' st'' : State) :
    chars st <> [] -> body U st = Ok st' -> reaches U st' st'' ->
    reaches U st st''.

(** Iterating the loop body a given number of times. *)
Fixpoint steps (U : Unicode) (n : nat) (st : State) : result State :=
  match n with
  | O => Ok st
  | S n' =>
      match chars st with
      | [] => Ok st
      | _ :: _ => st' <- body U st ;; steps U n' st'
      end
  end.

(** Text whose characters are all below code point 128. *)
Definition ascii_text (cs : list char) : bool :=
  forallb (fun c => (c <? 128)%N) cs.

(** [[A-Za-z0-9_]] *)
Definition word_char (c : char) : bool :=
  ascii_letter c || ascii_digit c || (c =? UNDERSCORE)%N.

(** [[A-Za-z_][A-Za-z0-9_]*], the runs the specification speaks of. *)
Definition identifier_run (run : str) : bool :=
  match run with
  | [] => false
  | c :: r => (ascii_letter c || (c =? UNDERSCORE)%N) && forallb word_char r
  end.

(** [[A-Za-z][A-Za-z0-9_]*], the runs that start with a letter. *)
Definition letter_led_run (run : str) : bool :=
  match run with
  | [] => false
  | c :: r => ascii_letter c && forallb word_char r
  end.

(** [true], [false], [let], [mut] *)
Definition reserved_word (run : str) : bool :=
  str_eqb run (chars_of "true") || str_eqb run (chars_of "false") ||
  str_eqb run (chars_of "let") || str_eqb run (chars_of "mut").

(** The run is maximal: the input ends after it, or goes on with a
    character that the word loop does not take. *)
Definition ends_run (U : Unicode) (rest : list char) : bool :=
  match rest with
  | [] => true
  | c :: _ => negb (isalnum U c || (c =? UNDERSCORE)%N)
  end.

(** The structural tokens: INDENT, DEDENT and NEWLINE. *)
Definition is_structural (t : Token) : bool :=
  match type t with
  | INDENT | DEDENT | NEWLINE => true
  | _ => false
  end.

(** The two characters that open a string literal. *)
Definition is_quote (q : char) : bool := ((q =? SQUOTE) || (q =? DQUOTE))%N.

(** The characters that the dispatcher settles before it looks at
    [isnumeric] and [isalpha]: space, newline, the quotes, and the keys of
    [token_map]. *)
Definition is_special (c : char) : bool :=
  (c =? SPACE)%N || (c =? NL)%N || is_quote c ||
  match token_map c with Some _ => true | None => false end.

(** A run of characters that the number loop takes as digits. *)
Definition numeric_run (U : Unicode) (d : str) : bool :=
  forallb (isnumeric U) d.

(** Where the number loop stops before any period: at the end of the
    input, or at a character that is neither numeric nor a period. *)
Definition ends_int (U : Unicode) (rest : list char) : bool :=
  match rest with
  | [] => true
  | c :: _ => negb (isnumeric U c || (c =? PERIOD_CHAR)%N)
  end.

(** Where the number loop stops after a period: at the end of the input,
    or at a character that is not numeric (a second period included). *)
Definition ends_float (U : Unicode) (rest : list char) : bool :=
  match rest with
  | [] => true
  | c :: _ => negb (isnumeric U c)
  end.

(** A run of characters that the word loop takes. *)
Definition word_run (U : Unicode) (v : str) : bool :=
  forallb (fun c => isalnum U c || (c =? UNDERSCORE)%N) v.

(** The fifteen token types of [token_map]. *)
Definition is_symbol_type (ty : TokenType) : bool :=
  match ty with
  | EQUALS | ADD | SUBTRACT | MULTIPLY | DIVIDE | MODULO
  | OPEN_PAREN | CLOSE_PAREN | OPEN_BRACE | CLOSE_BRACE
  | OPEN_BRACKET | CLOSE_BRACKET | PERIOD | COMMA | COLON => true
  | _ => false
  end.

(** Number of opening bracket tokens minus number of closing ones, of
    any of the three kinds. *)
Definition bracket_balance (ts : list Token) : Z :=
  count OPEN_PAREN ts + count OPEN_BRACE ts + count OPEN_BRACKET ts
  - count CLOSE_PAREN ts - count CLOSE_BRACE ts - count CLOSE_BRACKET ts.

(** Every INDENT comes right after a NEWLINE, and every DEDENT right
    after a NEWLINE or another DEDENT; [prev] is the type of the token
    before the list. *)
Fixpoint indents_follow_newlines (prev : TokenType) (ts : list Token) : bool :=
  match ts with
  | [] => true
  | t :: ts' =>
      match type t with
      | INDENT => type_eqb prev NEWLINE
      | DEDENT => type_eqb prev NEWLINE || type_eqb prev DEDENT
      | _ => true
      end && indents_follow_newlines (type t) ts'
  end.

(** The tokens that the newline iteration appends outside brackets, from
    level [last] to the candidate level [cand]. *)
Definition newline_tokens (newline : char) (last cand : Z) : list Token :=
  mkToken [newline] NEWLINE ::
  (if cand >? last then [mkToken [] INDENT]
   else repeat (mkToken [] DEDENT) (Z.to_nat (last - cand))).

(** The type that word mode gives to a word: the list test for the
    booleans first, the [KEYWORDS] lookup next, IDENTIFIER last. *)
Definition word_type (v : str) : TokenType :=
  if str_eqb v (chars_of "true") || str_eqb v (chars_of "false") then BOOLEAN
  else if str_eqb v (chars_of "let") then LET
  else if str_eqb v (chars_of "mut") then MUT
  else IDENTIFIER.

(** The spaces of an indentation stop here: at the end of the input or
    at a character that is not a space. *)
Definition ends_spaces (rest : list char) : bool :=
  match rest with
  | [] => true
  | c :: _ => negb (c =? SPACE)%N
  end.

(** What symbol mode adds to the bracket level. *)
Definition bracket_step (c : char) : Z :=
  if is_open_bracket c then 1 else if is_close_bracket c then -1 else 0.

(** The iterations of the main loop, one rule for each thing a completed
    iteration can do: skip a space; drop a newline and its indentation
    inside brackets; scan a newline outside brackets; scan a string, a
    symbol, an integer, a number with a period, a word. *)
Inductive iteration (U : Unicode) : State -> State -> Prop :=
| it_space (rest : list char) (a l : Z) (ts : list Token) :
    iteration U (mkState (SPACE :: rest) a l ts) (mkState rest a l ts)
| it_newline_inside (rest : list char) (a l : Z) (ts : list Token) :
    a > 0 ->
    iteration U (mkState (NL :: rest) a l ts)
      (mkState (snd (scan_indent 0 rest)) a l ts)
| it_newline_outside (rest : list char) (a l : Z) (ts : list Token) :
    a <= 0 -> fst (scan_indent 0 rest) <= l + 1 ->
    iteration U (mkState (NL :: rest) a l ts)
      (mkState (snd (scan_indent 0 rest)) a (fst (scan_indent 0 rest))
         (ts ++ newline_tokens NL l (fst (scan_indent 0 rest))))
| it_string (q : char) (text rest : list char) (a l : Z) (ts : list Token) :
    is_quote q = true -> ~ In q text ->
    iteration U (mkState (q :: text ++ q :: rest) a l ts)
      (mkState rest a l (ts ++ [mkToken text STRING]))
| it_symbol (c : char) (ty : TokenType) (rest : list char) (a l : Z)
    (ts : list Token) :
    token_map c = Some ty ->
    iteration U (mkState (c :: rest) a l ts)
      (mkState rest (a + bracket_step c) l (ts ++ [mkToken [c] ty]))
| it_int (d rest : list char) (a l : Z) (ts : list Token) :
    d <> [] -> numeric_run U d = true -> ends_int U rest = true ->
    iteration U (mkState (d ++ rest) a l ts)
      (mkState rest a l (ts ++ [mkToken d INT]))
| it_float (d1 d2 rest : list char) (a l : Z) (ts : list Token) :
    d1 <> [] -> numeric_run U d1 = true -> numeric_run U d2 = true ->
    ends_float U rest = true ->
    iteration U (mkState (d1 ++ PERIOD_CHAR :: d2 ++ rest) a l ts)
      (mkState rest a l (ts ++ [mkToken (d1 ++ PERIOD_CHAR :: d2) FLOAT]))
| it_word (c : char) (tl rest : list char) (a l : Z) (ts : list Token) :
    isalpha U c = true -> isnumeric U c = false ->
    word_run U tl = true -> ends_run U rest = true ->
    iteration U (mkState (c :: tl ++ rest) a l ts)
      (mkState rest a l (ts ++ [mkToken (c :: tl) (word_type (c :: tl))])).

(** How the value of a token goes with its type. *)
Definition token_shape (U : Unicode) (t : Token) : Prop :=
  match type t with
  | INT => value t <> [] /\ numeric_run U (value t) = true
  | FLOAT =>
      exists d1 d2, value t = d1 ++ PERIOD_CHAR :: d2 /\ d1 <> [] /\
                    numeric_run U d1 = true /\ numeric_run U d2 = true
  | STRING => True
  | BOOLEAN => value t = chars_of "true" \/ value t = chars_of "false"
  | LET => value t = chars_of "let"
  | MUT => value t = chars_of "mut"
  | IDENTIFIER =>
      reserved_word (value t) = false /\
      exists c tl, value t = c :: tl /\ isalpha U c = true /\
                   isnumeric U c = false /\ word_run U tl = true
  | INDENT | DEDENT | EOF => value t = []
  | NEWLINE => value t = [NL]
  | _ => exists c, value t = [c] /\ token_map c = Some (type t)
  end.

(** Why an iteration that stands at the character [c], with [rest]
    after it, raises [e]: a newline outside brackets whose line is more
    than one unit deeper than the current level; a quote that no later
    character matches; a character that no rule of the dispatcher
    takes. *)
Definition raises (U : Unicode) (st : State) (c : char) (rest : list char)
  (e : exn) : Prop :=
  (e = IndentationError /\ c = NL /\ any_bracket_level st <= 0 /\
   fst (scan_indent 0 rest) > last_indent_level st + 1) \/
  (e = IndexError /\ is_quote c = true /\ ~ In c rest) \/
  (e = UnrecognizedCharacter c /\ is_special c = false /\
   isnumeric U c = false /\ isalpha U c = false).

(** The three facts that an iteration keeps about the indentation. *)
Definition indent_ok (st : State) : Prop :=
  0 <= last_indent_level st /\
  indent_balance (token_stream st) = last_indent_level st /\
  forall pre post, token_stream st = pre ++ post -> 0 <= indent_balance pre.

(** The loop stopped at once: nothing was consumed. *)
Ltac nil_prefix :=
  exists []; simpl; split; [reflexivity | symmetry; apply app_nil_r].

(** ** Facts about the inner loops *)

Lemma scan_indent_spec (k : nat) :
  forall cs n, (length cs <= k)%nat ->
    exists pre, cs = pre ++ snd (scan_indent n cs) /\
                n <= fst (scan_indent n cs).
Proof.
  induction k as [|k IH]; intros cs n Hk.
  - destruct cs; [|simpl in Hk; lia]. exists []. simpl. split; [reflexivity|lia].
  - destruct cs as [|a [|b [|c [|d rest]]]];
      try (exists []; simpl; split; [reflexivity|lia]).
    simpl scan_indent.
    destruct ((a =? SPACE) && (b =? SPACE) && (c =? SPACE) && (d =? SPACE))%N.
    + destruct (IH rest (n + 1)) as [pre [E L]]; [simpl in Hk; lia|].
      exists (a :: b :: c :: d :: pre). simpl. split; [congruence|lia].
    + exists []. simpl. split; [reflexivity|lia].
Qed.

Lemma scan_indent_suffix (cs : list char) (n : Z) :
  exists pre, cs = pre ++ snd (scan_indent n cs).
Proof.
  destruct (scan_indent_spec (length cs) cs n (le_n _)) as [pre [E _]].
  exists pre. exact E.
Qed.

Lemma scan_string_closed (q : char) (body rest : list char) :
  forall acc, ~ In q body ->
    scan_string q acc (body ++ q :: rest) = Ok (acc ++ body, q :: rest).
Proof.
  induction body as [|c body IH]; intros acc Hq; simpl.
  - rewrite N.eqb_refl. simpl. rewrite app_nil_r. reflexivity.
  - destruct (N.eqb_spec c q) as [->|Hne]; simpl.
    + exfalso. apply Hq. left. reflexivity.
    + rewrite IH by (intro Hin; apply Hq; right; exact Hin).
      rewrite <- app_assoc. reflexivity.
Qed.

Lemma scan_string_open (q : char) (cs : list char) :
  forall acc, ~ In q cs -> scan_string q acc cs = Raise IndexError.
Proof.
  induction cs as [|c cs IH]; intros acc Hq; simpl; [reflexivity|].
  destruct (N.eqb_spec c q) as [->|Hne]; simpl.
  - exfalso. apply Hq. left. reflexivity.
  - apply IH. intro Hin. apply Hq. right. exact Hin.
Qed.

Lemma scan_string_inv (q : char) (cs : list char) :
  forall acc s r, scan_string q acc cs = Ok (s, r) ->
    exists body rest, cs = body ++ q :: rest /\ ~ In q body /\
                      s = acc ++ body /\ r = q :: rest.
Proof.
  induction cs as [|c cs IH]; intros acc s r H; simpl in H; [discriminate|].
  destruct (N.eqb_spec c q) as [->|Hne]; simpl in H.
  - inversion H; subst. exists [], cs. rewrite app_nil_r.
    repeat split; auto.
  - apply IH in H. destruct H as [body [rest [E [Hq [Es Er]]]]].
    exists (c :: body), rest. subst. rewrite <- app_assoc.
    repeat split; auto. intros [Hc|Hin]; [congruence|auto].
Qed.

Lemma scan_string_fuel (q : char) (cs : list char) :
  forall acc, scan_string q acc cs <> OutOfFuel.
Proof.
  induction cs as [|c cs IH]; intros acc; simpl; [discriminate|].
  destruct (negb (c =? q)%N); [apply IH|discriminate].
Qed.

Lemma scan_number_spec (U : Unicode) (cs : list char) :
  forall pf acc, exists pre,
    cs = pre ++ snd (scan_number U pf acc cs) /\
    fst (fst (scan_number U pf acc cs)) = acc ++ pre.
Proof.
  induction cs as [|c cs IH]; intros pf acc; simpl.
  - nil_prefix.
  - destruct (isnumeric U c || (c =? PERIOD_CHAR)%N).
    + destruct (pf && negb (isnumeric U c)).
      * nil_prefix.
      * destruct (IH (if (c =? PERIOD_CHAR)%N then true else pf) (acc ++ [c]))
          as [pre [E1 E2]].
        exists (c :: pre). simpl.
        split; [f_equal; exact E1 | rewrite E2, <- app_assoc; reflexivity].
    + nil_prefix.
Qed.

Lemma scan_number_progress (U : Unicode) (c : char) (cs : list char) :
  isnumeric U c = true ->
  (length (snd (scan_number U false [] (c :: cs))) <= length cs)%nat.
Proof.
  intros Hc. simpl. rewrite Hc. simpl.
  destruct (scan_number_spec U cs (if (c =? PERIOD_CHAR)%N then true else false)
              [c]) as [pre [E _]].
  rewrite E at 2. rewrite length_app. lia.
Qed.

Lemma scan_word_spec (U : Unicode) (cs : list char) :
  forall acc, exists pre,
    cs = pre ++ snd (scan_word U acc cs) /\
    fst (scan_word U acc cs) = acc ++ pre.
Proof.
  induction cs as [|c cs IH]; intros acc; simpl.
  - nil_prefix.
  - destruct (isalnum U c || (c =? UNDERSCORE)%N).
    + destruct (IH (acc ++ [c])) as [pre [E1 E2]].
      exists (c :: pre). simpl.
        split; [f_equal; exact E1 | rewrite E2, <- app_assoc; reflexivity].
    + nil_prefix.
Qed.

Lemma isalpha_isalnum (U : Unicode) (c : char) :
  isalpha U c = true -> isalnum U c = true.
Proof. intros H. unfold isalnum. rewrite H. reflexivity. Qed.

Lemma scan_word_progress (U : Unicode) (c : char) (cs : list char) :
  isalpha U c = true ->
  (length (snd (scan_word U [] (c :: cs))) <= length cs)%nat.
Proof.
  intros Hc. simpl. rewrite (isalpha_isalnum U c Hc). simpl.
  destruct (scan_word_spec U cs [c]) as [pre [E _]].
  rewrite E at 2. rewrite length_app. lia.
Qed.

(** The dedent loop has fuel enough: it stops because its guard fails. *)
Lemma dedent_loop_spec (fuel : nat) :
  forall indent_level last ts,
    (Z.to_nat (last - indent_level) <= fuel)%nat ->
    dedent_loop fuel indent_level last ts =
    Ok (Z.min indent_level last,
        ts ++ repeat (mkToken [] DEDENT) (Z.to_nat (last - indent_level))).
Proof.
  induction fuel as [|fuel IH]; intros ind last ts Hf; simpl.
  - destruct (Z.ltb_spec ind last); [lia|].
    replace (Z.to_nat (last - ind)) with O by lia. simpl.
    rewrite app_nil_r. f_equal. f_equal. lia.
  - destruct (Z.ltb_spec ind last).
    + rewrite IH by lia.
      replace (Z.to_nat (last - ind)) with (S (Z.to_nat (last - 1 - ind))) by lia.
      simpl. rewrite <- app_assoc. simpl. f_equal. f_equal. lia.
    + replace (Z.to_nat (last - ind)) with O by lia. simpl.
      rewrite app_nil_r. f_equal. f_equal. lia.
Qed.

(** ** What one iteration does to the state *)

Lemma count_app (ty : TokenType) (a b : list Token) :
  count ty (a ++ b) = count ty a + count ty b.
Proof. unfold count. rewrite filter_app, length_app. lia. Qed.

Lemma indent_balance_app (a b : list Token) :
  indent_balance (a ++ b) = indent_balance a + indent_balance b.
Proof. unfold indent_balance. rewrite !count_app. lia. Qed.

Lemma indent_balance_dedents (n : nat) :
  indent_balance (repeat (mkToken [] DEDENT) n) = - Z.of_nat n.
Proof.
  induction n as [|n IH]; [reflexivity|].
  change (repeat (mkToken [] DEDENT) (S n))
    with ([mkToken [] DEDENT] ++ repeat (mkToken [] DEDENT) n).
  rewrite indent_balance_app, IH, Nat2Z.inj_succ.
  change (indent_balance [mkToken [] DEDENT]) with (-1). lia.
Qed.

Lemma scanned_ok_dedents (n : nat) :
  forallb scanned_ok (repeat (mkToken [] DEDENT) n) = true.
Proof. induction n as [|n IH]; simpl; auto. Qed.

Lemma token_map_plain (c : char) (ty : TokenType) :
  token_map c = Some ty ->
  ty <> EOF /\ ty <> INDENT /\ ty <> DEDENT /\ ty <> NEWLINE.
Proof.
  unfold token_map.
  repeat match goal with
         | |- context [if ?b then _ else _] => destruct b
         end;
    intros H; inversion H; repeat split; discriminate.
Qed.

Lemma KEYWORDS_plain (v : str) (ty : TokenType) :
  KEYWORDS v = Some ty -> ty = LET \/ ty = MUT.
Proof.
  unfold KEYWORDS.
  destruct (str_eqb v (chars_of "let")); [intros H; inversion H; auto|].
  destruct (str_eqb v (chars_of "mut")); [intros H; inversion H; auto|].
  discriminate.
Qed.

Lemma effect_refl (st : State) : effect st st [] [].
Proof.
  split; simpl; auto; [symmetry; apply app_nil_r|].
  unfold indent_balance, count. simpl. lia.
Qed.

Lemma effect_trans (a b c : State) (p q : list char) (m n : list Token) :
  effect a b p m -> effect b c q n -> effect a c (p ++ q) (m ++ n).
Proof.
  intros [C1 T1 O1 B1] [C2 T2 O2 B2]. split.
  - rewrite C1, C2, app_assoc. reflexivity.
  - rewrite T2, T1, app_assoc. reflexivity.
  - rewrite forallb_app, O1, O2. reflexivity.
  - rewrite indent_balance_app. lia.
Qed.

Lemma newline_mode_effect (st st' : State) (rest : list char) :
  newline_mode st NL rest = Ok st' ->
  exists pre new, effect (mkState (NL :: rest) (any_bracket_level st)
                            (last_indent_level st) (token_stream st))
                         st' pre new /\
                  (length (chars st') <= length rest)%nat.
Proof.
  unfold newline_mode.
  destruct (scan_indent_suffix rest 0) as [p Ep].
  destruct (scan_indent 0 rest) as [ind cs] eqn:Es. simpl in Ep.
  assert (Hlen : (length cs <= length rest)%nat)
    by (rewrite Ep, length_app; lia).
  destruct (any_bracket_level st >? 0).
  - intros H. inversion H; subst st'; clear H.
    exists (NL :: p), []. split; [|exact Hlen].
    split; simpl; [congruence | symmetry; apply app_nil_r | reflexivity |].
    unfold indent_balance, count. simpl. lia.
  - destruct (Z.gtb_spec ind (last_indent_level st)) as [Hgt|Hle].
    + destruct (Z.eqb_spec (last_indent_level st - ind) (-1)) as [E1|N1];
        simpl; [|discriminate].
      rewrite dedent_loop_spec by lia. simpl.
      intros H. inversion H; subst st'; clear H.
      exists (NL :: p),
        ([mkToken [NL] NEWLINE; mkToken [] INDENT] ++
         repeat (mkToken [] DEDENT) (Z.to_nat (ind - ind))).
      split; [|exact Hlen].
      split; simpl.
      * congruence.
      * rewrite <- !app_assoc. reflexivity.
      * apply scanned_ok_dedents.
      * replace (Z.to_nat (ind - ind)) with O by lia. simpl.
        unfold indent_balance, count. simpl. lia.
    + simpl. rewrite dedent_loop_spec by lia. simpl.
      intros H. inversion H; subst st'; clear H.
      exists (NL :: p),
        ([mkToken [NL] NEWLINE] ++
         repeat (mkToken [] DEDENT)
           (Z.to_nat (last_indent_level st - ind))).
      split; [|exact Hlen].
      split; simpl.
      * congruence.
      * rewrite <- !app_assoc. reflexivity.
      * apply scanned_ok_dedents.
      * change (mkToken [NL] NEWLINE :: ?l) with ([mkToken [NL] NEWLINE] ++ l).
        rewrite indent_balance_app, indent_balance_dedents.
        change (indent_balance [mkToken [NL] NEWLINE]) with 0. lia.
Qed.

(** An iteration that leaves [last_indent_level] alone. *)
Lemma effect_same_indent (st st' : State) (pre : list char)
  (new : list Token) :
  chars st = pre ++ chars st' ->
  token_stream st' = token_stream st ++ new ->
  forallb scanned_ok new = true ->
  indent_balance new = 0 ->
  last_indent_level st' = last_indent_level st ->
  effect st st' pre new.
Proof. intros C T O B L. split; auto. rewrite B, L. lia. Qed.

Lemma newline_mode_fuel (st : State) (c : char) (rest : list char) :
  newline_mode st c rest <> OutOfFuel.
Proof.
  unfold newline_mode.
  destruct (scan_indent 0 rest) as [ind cs].
  destruct (any_bracket_level st >? 0); [discriminate|].
  destruct (Z.gtb_spec ind (last_indent_level st)).
  - destruct (negb (last_indent_level st - ind =? -1)); simpl; [discriminate|].
    rewrite dedent_loop_spec by lia. simpl. discriminate.
  - simpl. rewrite dedent_loop_spec by lia. simpl. discriminate.
Qed.

Lemma string_mode_effect (st st' : State) (q : char) (rest : list char) :
  string_mode st q rest = Ok st' ->
  exists body, ~ In q body /\
    rest = body ++ q :: chars st' /\
    st' = mkState (chars st') (any_bracket_level st) (last_indent_level st)
            (token_stream st ++ [mkToken body STRING]).
Proof.
  unfold string_mode.
  destruct (scan_string q [] rest) as [[s r]| |] eqn:Es; simpl; try discriminate.
  apply scan_string_inv in Es. destruct Es as [body [rest' [E [Hq [-> ->]]]]].
  intros H. inversion H; subst st'; clear H. simpl.
  exists body. auto.
Qed.

Lemma string_mode_fuel (st : State) (q : char) (rest : list char) :
  string_mode st q rest <> OutOfFuel.
Proof.
  unfold string_mode.
  destruct (scan_string q [] rest) as [[s r]| |] eqn:Es; simpl.
  - destruct r; discriminate.
  - discriminate.
  - exfalso. exact (scan_string_fuel q rest [] Es).
Qed.

Lemma word_mode_effect (U : Unicode) (st st' : State) :
  word_mode U st = Ok st' ->
  exists ty,
    st' = mkState (snd (scan_word U [] (chars st))) (any_bracket_level st)
            (last_indent_level st)
            (token_stream st ++
               [mkToken (fst (scan_word U [] (chars st))) ty]) /\
    (ty = BOOLEAN \/ ty = LET \/ ty = MUT \/ ty = IDENTIFIER).
Proof.
  unfold word_mode. destruct (scan_word U [] (chars st)) as [v cs]. simpl.
  destruct (str_eqb v (chars_of "true") || str_eqb v (chars_of "false")).
  - intros H. inversion H. exists BOOLEAN. auto.
  - destruct (KEYWORDS v) as [ty|] eqn:Ek; intros H; inversion H.
    + exists ty. split; [reflexivity|].
      destruct (KEYWORDS_plain v ty Ek); auto.
    + exists IDENTIFIER. auto 6.
Qed.

(** Every iteration that completes consumes a non-empty prefix of the
    remaining input and appends tokens of the expected shape. *)
Lemma body_effect (U : Unicode) (st st' : State) :
  chars st <> [] -> body U st = Ok st' ->
  exists pre new, effect st st' pre new /\
                  (length (chars st') < length (chars st))%nat.
Proof.
  intros Hne. unfold body.
  destruct st as [cs abl lil ts]. simpl in *.
  destruct cs as [|c rest]; [congruence|]. clear Hne.
  destruct (N.eqb_spec c SPACE) as [Hsp|Hsp].
  { intros H. inversion H; subst st'; clear H. exists [c], [].
    split; [|simpl; lia].
    apply effect_same_indent; simpl; auto. symmetry; apply app_nil_r. }
  destruct (N.eqb_spec c NL) as [Hnl|Hnl].
  { subst c. intros H. apply newline_mode_effect in H.
    destruct H as [pre [new [He Hl]]]. exists pre, new.
    split; [exact He|simpl; lia]. }
  destruct ((c =? SQUOTE) || (c =? DQUOTE))%N.
  { intros H. apply string_mode_effect in H. simpl in H.
    destruct H as [body [Hq [Er Est]]].
    exists (c :: body ++ [c]), [mkToken body STRING].
    split.
    - rewrite Est.
      apply effect_same_indent; simpl; auto.
      rewrite Er, <- app_assoc. reflexivity.
    - simpl. rewrite Er, length_app. simpl. lia. }
  destruct (token_map c) as [ty|] eqn:Etm.
  { unfold symbol_mode. simpl.
    intros H. inversion H; subst st'; clear H.
    destruct (token_map_plain c ty Etm) as [H1 [H2 [H3 H4]]].
    exists [c], [mkToken [c] ty]. split; [|simpl; lia].
    apply effect_same_indent; simpl; auto.
    - unfold scanned_ok. simpl. destruct ty; try reflexivity; congruence.
    - destruct ty; try reflexivity; congruence. }
  destruct (isnumeric U c) eqn:En.
  { unfold number_mode. simpl chars.
    pose proof (scan_number_progress U c rest En) as Hp.
    destruct (scan_number_spec U (c :: rest) false []) as [pre [E _]].
    destruct (scan_number U false [] (c :: rest)) as [[num pf] cs'].
    simpl in *. intros H. inversion H; subst st'; clear H.
    exists pre, [mkToken num (if pf then FLOAT else INT)].
    split; [|simpl; lia].
    apply effect_same_indent; simpl; auto; destruct pf; reflexivity. }
  destruct (isalpha U c) eqn:Ea; [|discriminate].
  intros H. apply word_mode_effect in H. cbn [chars] in H.
  destruct H as [ty [Est Hty]].
  pose proof (scan_word_progress U c rest Ea) as Hp.
  destruct (scan_word_spec U (c :: rest) []) as [pre [E _]].
  exists pre, [mkToken (fst (scan_word U [] (c :: rest))) ty].
  subst st'. split; [|cbn [chars length]; lia].
  apply effect_same_indent; cbn [chars token_stream last_indent_level]; auto;
    destruct Hty as [-> | [-> | [-> | ->]]]; reflexivity.
Qed.

Lemma body_fuel (U : Unicode) (st : State) : body U st <> OutOfFuel.
Proof.
  unfold body. destruct (chars st) as [|c rest]; [discriminate|].
  destruct (c =? SPACE)%N; [discriminate|].
  destruct (c =? NL)%N; [apply newline_mode_fuel|].
  destruct ((c =? SQUOTE) || (c =? DQUOTE))%N; [apply string_mode_fuel|].
  destruct (token_map c); [discriminate|].
  destruct (isnumeric U c).
  - unfold number_mode.
    destruct (scan_number U false [] (chars st)) as [[num pf] cs'].
    discriminate.
  - destruct (isalpha U c); [|discriminate].
    unfold word_mode.
    destruct (scan_word U [] (chars st)) as [v cs].
    destruct (str_eqb v (chars_of "true") || str_eqb v (chars_of "false"));
      [discriminate|].
    destruct (KEYWORDS v); discriminate.
Qed.

(** ** The main loop *)

Lemma loop_done (U : Unicode) (fuel : nat) (st : State) :
  chars st = [] -> loop U fuel st = Ok st.
Proof. intros H. destruct fuel; simpl; rewrite H; reflexivity. Qed.

Lemma loop_unfold (U : Unicode) (fuel : nat) (st : State) :
  chars st <> [] ->
  loop U (S fuel) st = (st' <- body U st ;; loop U fuel st').
Proof. intros H. simpl. destruct (chars st); [congruence|reflexivity]. Qed.

Lemma loop_effect (U : Unicode) (fuel : nat) :
  forall st st', loop U fuel st = Ok st' ->
    chars st' = [] /\ exists pre new, effect st st' pre new.
Proof.
  induction fuel as [|fuel IH]; intros st st' H.
  - simpl in H. destruct (chars st) eqn:E; [|discriminate].
    inversion H; subst. split; [exact E|]. exists [], []. apply effect_refl.
  - destruct (chars st) eqn:E.
    + rewrite loop_done in H by exact E. inversion H; subst.
      split; [exact E|]. exists [], []. apply effect_refl.
    + rewrite loop_unfold in H by congruence.
      destruct (body U st) as [st1| |] eqn:Eb; simpl in H; try discriminate.
      apply body_effect in Eb; [|congruence].
      destruct Eb as [p [m [He _]]].
      apply IH in H. destruct H as [Hc [q [n He']]].
      split; [exact Hc|]. exists (p ++ q), (m ++ n).
      exact (effect_trans _ _ _ _ _ _ _ He He').
Qed.

(** Fuel equal to the number of remaining characters is enough, and more
    fuel changes nothing. *)
Lemma loop_fuel (U : Unicode) (f1 : nat) :
  forall f2 st, (length (chars st) <= f1)%nat ->
                (length (chars st) <= f2)%nat ->
    loop U f1 st = loop U f2 st /\ loop U f1 st <> OutOfFuel.
Proof.
  induction f1 as [|f1 IH]; intros f2 st H1 H2.
  - destruct (chars st) eqn:E; [|simpl in H1; lia].
    rewrite !loop_done by exact E. split; [reflexivity|discriminate].
  - destruct (chars st) eqn:E.
    + rewrite !loop_done by exact E. split; [reflexivity|discriminate].
    + destruct f2 as [|f2]; [simpl in H2; lia|].
      rewrite !loop_unfold by congruence.
      destruct (body U st) as [st1| |] eqn:Eb; simpl.
      * apply body_effect in Eb; [|congruence].
        destruct Eb as [_ [_ [_ Hl]]]. rewrite E in Hl. simpl in *.
        apply IH; lia.
      * split; [reflexivity|discriminate].
      * exfalso. exact (body_fuel U st Eb).
Qed.

Lemma reaches_loop (U : Unicode) (st st' : State) :
  reaches U st st' ->
  loop U (length (chars st)) st = loop U (length (chars st')) st'.
Proof.
  induction 1 as [st|st st1 st2 Hne Hb _ IH]; [reflexivity|].
  rewrite <- IH.
  destruct (chars st) as [|c cs] eqn:E; [congruence|].
  simpl length. rewrite loop_unfold by congruence. rewrite Hb. simpl.
  apply body_effect in Hb; [|congruence].
  destruct Hb as [_ [_ [_ Hl]]]. rewrite E in Hl. simpl in Hl.
  apply loop_fuel; lia.
Qed.

Lemma reaches_effect (U : Unicode) (st st' : State) :
  reaches U st st' -> exists pre new, effect st st' pre new.
Proof.
  induction 1 as [st|st st1 st2 Hne Hb _ IH].
  - exists [], []. apply effect_refl.
  - apply body_effect in Hb; [|exact Hne].
    destruct Hb as [p [m [He _]]]. destruct IH as [q [n He']].
    exists (p ++ q), (m ++ n). exact (effect_trans _ _ _ _ _ _ _ He He').
Qed.

(** An exception raised by an iteration the loop reaches is the outcome
    of [tokenize]. *)
Lemma reaches_raise (U : Unicode) (source_code : str) (st : State) (e : exn) :
  reaches U (init source_code) st -> chars st <> [] ->
  body U st = Raise e -> tokenize U source_code = Raise e.
Proof.
  intros Hr Hne Hb. unfold tokenize, final_state.
  change (length source_code) with (length (chars (init source_code))).
  rewrite (reaches_loop U _ _ Hr).
  destruct (chars st) as [|c cs] eqn:E; [congruence|].
  simpl length. rewrite loop_unfold by congruence. rewrite Hb. reflexivity.
Qed.

Lemma reaches_snoc (U : Unicode) (a b c : State) :
  reaches U a b -> chars b <> [] -> body U b = Ok c -> reaches U a c.
Proof.
  induction 1 as [st|st st1 st2 Hne Hb _ IH]; intros Hn Hc.
  - apply (reaches_step U st c c Hn Hc). apply reaches_here.
  - apply (reaches_step U st st1 c Hne Hb). apply IH; assumption.
Qed.

(** The tokens of a state the loop passes through open the output. *)
Lemma reaches_tokens (U : Unicode) (source_code : str) (st : State)
  (toks : list Token) :
  reaches U (init source_code) st -> tokenize U source_code = Ok toks ->
  exists later, toks = token_stream st ++ later.
Proof.
  intros Hr. unfold tokenize, final_state.
  change (length source_code) with (length (chars (init source_code))).
  rewrite (reaches_loop U _ _ Hr).
  destruct (loop U (length (chars st)) st) as [stf| |] eqn:El; simpl;
    try discriminate.
  intros H. inversion H; subst toks; clear H.
  apply loop_effect in El. destruct El as [_ [pre [new [_ Ht _ _]]]].
  exists (new ++ [EOF_token]). rewrite Ht, app_assoc. reflexivity.
Qed.

(** ** ASCII text: the outcome does not depend on the character database *)

Lemma isalnum_ascii (U : Unicode) (c : char) :
  (c < 128)%N -> isalnum U c = isalnum ascii_only c.
Proof.
  intros H. unfold isalnum.
  rewrite (isalpha_ascii U c H), (isdecimal_ascii U c H),
    (isdigit_ascii U c H), (isnumeric_ascii U c H).
  reflexivity.
Qed.

Lemma scan_number_ascii (U : Unicode) (cs : list char) :
  ascii_text cs = true ->
  forall pf acc, scan_number U pf acc cs = scan_number ascii_only pf acc cs.
Proof.
  induction cs as [|c cs IH]; intros Ha pf acc; [reflexivity|].
  simpl in Ha. apply andb_prop in Ha. destruct Ha as [Hc Ha].
  apply N.ltb_lt in Hc. simpl.
  rewrite (isnumeric_ascii U c Hc). simpl isnumeric.
  rewrite (IH Ha). reflexivity.
Qed.

Lemma scan_word_ascii (U : Unicode) (cs : list char) :
  ascii_text cs = true ->
  forall acc, scan_word U acc cs = scan_word ascii_only acc cs.
Proof.
  induction cs as [|c cs IH]; intros Ha acc; [reflexivity|].
  simpl in Ha. apply andb_prop in Ha. destruct Ha as [Hc Ha].
  apply N.ltb_lt in Hc. simpl.
  rewrite (isalnum_ascii U c Hc), (IH Ha). reflexivity.
Qed.

Lemma body_ascii (U : Unicode) (st : State) :
  ascii_text (chars st) = true -> body U st = body ascii_only st.
Proof.
  intros Ha. unfold body, number_mode, word_mode.
  rewrite (scan_number_ascii U _ Ha), (scan_word_ascii U _ Ha).
  destruct (chars st) as [|c rest]; [reflexivity|].
  simpl in Ha. apply andb_prop in Ha. destruct Ha as [Hc _].
  apply N.ltb_lt in Hc.
  rewrite (isnumeric_ascii U c Hc), (isalpha_ascii U c Hc). reflexivity.
Qed.

Lemma loop_ascii (U : Unicode) (fuel : nat) :
  forall st, ascii_text (chars st) = true ->
             loop U fuel st = loop ascii_only fuel st.
Proof.
  induction fuel as [|fuel IH]; intros st Ha; [reflexivity|].
  destruct (chars st) eqn:E; [rewrite !loop_done by exact E; reflexivity|].
  rewrite <- E in Ha.
  rewrite !loop_unfold by congruence.
  rewrite (body_ascii U st Ha).
  destruct (body ascii_only st) as [st1| |] eqn:Eb; simpl; try reflexivity.
  apply IH. apply body_effect in Eb; [|congruence].
  destruct Eb as [p [m [[Hc _ _ _] _]]].
  rewrite Hc in Ha. unfold ascii_text in Ha. rewrite forallb_app in Ha.
  apply andb_prop in Ha. apply Ha.
Qed.

Lemma tokenize_ascii (U : Unicode) (source_code : str) :
  ascii_text source_code = true ->
  tokenize U source_code = tokenize ascii_only source_code.
Proof.
  intros Ha. unfold tokenize, final_state.
  rewrite (loop_ascii U _ (init source_code) Ha). reflexivity.
Qed.

(** ** Scenarios of the specification *)

Example scenario_let (U : Unicode) :
  tokenize U (chars_of "let x = 5") =
  Ok [mkToken (chars_of "let") LET; mkToken (chars_of "x") IDENTIFIER;
      mkToken (chars_of "=") EQUALS; mkToken (chars_of "5") INT; EOF_token].
Proof. rewrite tokenize_ascii by reflexivity. vm_compute. reflexivity. Qed.

Example scenario_float (U : Unicode) :
  tokenize U (chars_of "3.14") =
  Ok [mkToken (chars_of "3.14") FLOAT; EOF_token].
Proof. rewrite tokenize_ascii by reflexivity. vm_compute. reflexivity. Qed.

Example scenario_true (U : Unicode) :
  tokenize U (chars_of "true") =
  Ok [mkToken (chars_of "true") BOOLEAN; EOF_token].
Proof. rewrite tokenize_ascii by reflexivity. vm_compute. reflexivity. Qed.

Example scenario_indent_dedent (U : Unicode) :
  tokenize U (chars_of "a" ++ NL :: chars_of "    b" ++ NL :: chars_of "c") =
  Ok [mkToken (chars_of "a") IDENTIFIER;
      mkToken [NL] NEWLINE; mkToken [] INDENT;
      mkToken (chars_of "b") IDENTIFIER;
      mkToken [NL] NEWLINE; mkToken [] DEDENT;
      mkToken (chars_of "c") IDENTIFIER; EOF_token].
Proof. rewrite tokenize_ascii by reflexivity. vm_compute. reflexivity. Qed.

(** ** Words *)

Lemma str_eqb_eq (a b : str) : str_eqb a b = true <-> a = b.
Proof.
  unfold str_eqb. destruct (list_eq_dec N.eq_dec a b); split; auto.
  discriminate.
Qed.

Lemma ascii_letter_range (c : char) :
  ascii_letter c = true -> (65 <= c <= 90 \/ 97 <= c <= 122)%N.
Proof.
  unfold ascii_letter. intros H. apply orb_prop in H.
  destruct H as [H|H]; apply andb_prop in H; destruct H as [H1 H2];
    apply N.leb_le in H1; apply N.leb_le in H2; [left|right]; lia.
Qed.

Lemma ascii_digit_range (c : char) :
  ascii_digit c = true -> (48 <= c <= 57)%N.
Proof.
  unfold ascii_digit. intros H. apply andb_prop in H. destruct H as [H1 H2].
  apply N.leb_le in H1; apply N.leb_le in H2. lia.
Qed.

Lemma word_char_taken (U : Unicode) (c : char) :
  word_char c = true -> isalnum U c || (c =? UNDERSCORE)%N = true.
Proof.
  unfold word_char. intros H.
  destruct (c =? UNDERSCORE)%N; [apply orb_true_r|].
  rewrite orb_false_r in *. apply orb_prop in H. unfold isalnum.
  destruct H as [H|H].
  - rewrite (isalpha_ascii U c) by (apply ascii_letter_range in H; lia).
    rewrite H. reflexivity.
  - rewrite (isnumeric_ascii U c) by (apply ascii_digit_range in H; lia).
    rewrite H. apply orb_true_r.
Qed.

Lemma scan_word_run (U : Unicode) (run rest : list char) :
  forallb word_char run = true -> ends_run U rest = true ->
  forall acc, scan_word U acc (run ++ rest) = (acc ++ run, rest).
Proof.
  intros Hrun Hend. induction run as [|c run IH]; intros acc.
  - simpl. rewrite app_nil_r. destruct rest as [|d rest]; [reflexivity|].
    simpl in *. apply negb_true_iff in Hend. rewrite Hend. reflexivity.
  - simpl in Hrun. apply andb_prop in Hrun. destruct Hrun as [Hc Hrun].
    simpl. rewrite (word_char_taken U c Hc), (IH Hrun), <- app_assoc.
    reflexivity.
Qed.

(** A letter goes through the dispatcher down to word mode. *)
Lemma letter_dispatch (U : Unicode) (st : State) (c : char)
  (rest : list char) :
  ascii_letter c = true -> chars st = c :: rest ->
  body U st = word_mode U st.
Proof.
  intros Hl Hc. unfold body. rewrite Hc.
  pose proof (ascii_letter_range c Hl) as Hr.
  assert (Hsp : (c =? SPACE)%N = false)
    by (apply N.eqb_neq; unfold SPACE; simpl; lia).
  assert (Hnl : (c =? NL)%N = false)
    by (apply N.eqb_neq; unfold NL; lia).
  assert (Hsq : (c =? SQUOTE)%N = false)
    by (apply N.eqb_neq; unfold SQUOTE; simpl; lia).
  assert (Hdq : (c =? DQUOTE)%N = false)
    by (apply N.eqb_neq; unfold DQUOTE; lia).
  rewrite Hsp, Hnl, Hsq, Hdq. simpl.
  assert (Htm : token_map c = None).
  { unfold token_map.
    repeat match goal with
           | |- context [(c =? ?k)%N] =>
               destruct (N.eqb_spec c k) as [E|_];
               [exfalso; simpl in E; lia|]
           end.
    reflexivity. }
  rewrite Htm.
  rewrite (isnumeric_ascii U c) by lia.
  rewrite (isalpha_ascii U c) by lia.
  rewrite Hl.
  replace (ascii_digit c) with false; [reflexivity|].
  symmetry. unfold ascii_digit.
  destruct (N.leb_spec c 57); [|apply andb_false_r].
  destruct (N.leb_spec 48 c); [lia|reflexivity].
Qed.

Lemma word_mode_identifier (U : Unicode) (st : State) (run rest : list char) :
  letter_led_run run = true -> reserved_word run = false ->
  chars st = run ++ rest -> ends_run U rest = true ->
  word_mode U st =
  Ok (mkState rest (any_bracket_level st) (last_indent_level st)
        (token_stream st ++ [mkToken run IDENTIFIER])).
Proof.
  intros Hrun Hres Hc Hend. unfold word_mode. rewrite Hc.
  assert (Hw : forallb word_char run = true).
  { destruct run as [|c r]; [discriminate|]. simpl in *.
    apply andb_prop in Hrun. destruct Hrun as [Hl Hr].
    unfold word_char at 1. rewrite Hl, Hr. reflexivity. }
  rewrite (scan_word_run U run rest Hw Hend []). simpl app.
  unfold reserved_word in Hres.
  apply orb_false_elim in Hres. destruct Hres as [Hres Hmut].
  apply orb_false_elim in Hres. destruct Hres as [Hres Hlet].
  apply orb_false_elim in Hres. destruct Hres as [Htrue Hfalse].
  unfold KEYWORDS. rewrite Htrue, Hfalse, Hlet, Hmut. reflexivity.
Qed.

(** C1, as stated, fails on a run that starts with an underscore: the
    dispatcher enters word mode on [isalpha] only, and ["_"] falls through
    to the final [else]. *)
Lemma underscore_led_run_unrecognized :
  identifier_run (chars_of "_x") = true /\
  reserved_word (chars_of "_x") = false /\
  forall U : Unicode,
    tokenize U (chars_of "_x") = Raise (UnrecognizedCharacter UNDERSCORE).
Proof.
  split; [reflexivity|]. split; [reflexivity|].
  intros U. rewrite tokenize_ascii by reflexivity.
  vm_compute. reflexivity.
Qed.

(** C1, amended: a run matching [[A-Za-z][A-Za-z0-9_]*] that is not
    [true], [false], [let] or [mut] is tokenized, alone, into one
    IDENTIFIER token whose value is the run, followed by EOF; and whenever
    the main loop stands at the start of such a run that ends with the
    input or right before a character that is neither alphanumeric nor an
    underscore, the iteration consumes exactly the run and appends exactly
    one IDENTIFIER token whose value is the run, which is then the token
    of the output at that place if tokenize succeeds. *)
Theorem letter_led_run_is_identifier (U : Unicode) (run : str)
  (Hrun : letter_led_run run = true) (Hres : reserved_word run = false) :
  tokenize U run = Ok [mkToken run IDENTIFIER; EOF_token] /\
  (forall (st : State) (rest : list char),
     chars st = run ++ rest -> ends_run U rest = true ->
     body U st =
     Ok (mkState rest (any_bracket_level st) (last_indent_level st)
           (token_stream st ++ [mkToken run IDENTIFIER]))) /\
  (forall (source_code : str) (st : State) (rest : list char)
          (toks : list Token),
     reaches U (init source_code) st ->
     chars st = run ++ rest -> ends_run U rest = true ->
     tokenize U source_code = Ok toks ->
     exists later,
       toks = token_stream st ++ mkToken run IDENTIFIER :: later).
Proof.
  assert (Hstep : forall (st : State) (rest : list char),
    chars st = run ++ rest -> ends_run U rest = true ->
    body U st =
    Ok (mkState rest (any_bracket_level st) (last_indent_level st)
          (token_stream st ++ [mkToken run IDENTIFIER]))).
  { intros st rest Hc Hend.
    destruct run as [|c r] eqn:Er; [discriminate|].
    assert (Hl : ascii_letter c = true)
      by (simpl in Hrun; apply andb_prop in Hrun; apply Hrun).
    rewrite (letter_dispatch U st c (r ++ rest) Hl Hc).
    apply word_mode_identifier; assumption. }
  split; [|split; [exact Hstep|]].
  - unfold tokenize, final_state.
    destruct run as [|c r] eqn:Er; [discriminate|]. rewrite <- Er in *.
    assert (Hlen : length run = S (length r)) by (rewrite Er; reflexivity).
    rewrite Hlen, loop_unfold by (simpl; rewrite Er; discriminate).
    rewrite (Hstep (init run) []) by (simpl; auto using app_nil_r).
    simpl. rewrite loop_done by reflexivity. reflexivity.
  - intros src st rest toks Hr Hc Hend Hok.
    assert (Hne : chars st <> []).
    { rewrite Hc. destruct run; [discriminate Hrun|discriminate]. }
    pose proof (reaches_snoc U _ _ _ Hr Hne (Hstep st rest Hc Hend)) as Hr'.
    destruct (reaches_tokens U src _ toks Hr' Hok) as [later E].
    exists later. rewrite E. simpl. rewrite <- app_assoc. reflexivity.
Qed.

Lemma letter_led_run_is_identifier_witness :
  tokenize ascii_only (chars_of "my_var1") =
  Ok [mkToken (chars_of "my_var1") IDENTIFIER; EOF_token].
Proof.
  apply (proj1 (letter_led_run_is_identifier ascii_only (chars_of "my_var1")
                  eq_refl eq_refl)).
Defined.

(** A run between quotes is delimited by non-word characters and yet is
    no identifier: what matters is where the main loop stands. *)
Example quoted_run_is_string (U : Unicode) :
  tokenize U (chars_of "'ab'") = Ok [mkToken (chars_of "ab") STRING; EOF_token].
Proof. rewrite tokenize_ascii by reflexivity. vm_compute. reflexivity. Qed.

(** ** Structural tokens *)

(** What [tokenize] returns is what the loop scanned, then [EOF]. *)
Lemma tokenize_inv (U : Unicode) (source_code : str) (toks : list Token) :
  tokenize U source_code = Ok toks ->
  exists st, final_state U source_code = Ok st /\
             toks = token_stream st ++ [EOF_token] /\
             chars st = [] /\
             forallb scanned_ok (token_stream st) = true /\
             indent_balance (token_stream st) = last_indent_level st.
Proof.
  unfold tokenize. intros H.
  destruct (final_state U source_code) as [st| |] eqn:Ef; simpl in H;
    try discriminate.
  inversion H; subst toks; clear H.
  exists st. split; [reflexivity|]. split; [reflexivity|].
  unfold final_state in Ef. apply loop_effect in Ef.
  destruct Ef as [Hc [pre [new [_ Ht Ho Hb]]]].
  simpl in Ht, Hb. rewrite Ht. split; [exact Hc|].
  split; [exact Ho|]. rewrite Hb. lia.
Qed.

(** C2, as stated, fails: the NEWLINE token is built from the newline
    character popped off the input, [Token(newline, TokenType.NEWLINE)],
    so its value is that character and not the empty string. *)
Lemma newline_token_value_not_empty :
  (forall U : Unicode,
     tokenize U [NL] = Ok [mkToken [NL] NEWLINE; EOF_token]) /\
  is_structural (mkToken [NL] NEWLINE) = true /\
  value (mkToken [NL] NEWLINE) <> [].
Proof.
  split; [|split; [reflexivity|discriminate]].
  intros U. rewrite tokenize_ascii by reflexivity. vm_compute. reflexivity.
Qed.

(** C2, amended: for every input on which tokenize succeeds, every INDENT
    and every DEDENT token of the output has the empty string as its
    value, and every NEWLINE token has the one-character string made of
    the newline character as its value. *)
Theorem structural_token_values (U : Unicode) (source_code : str)
  (toks : list Token) (t : Token)
  (Hok : tokenize U source_code = Ok toks) (Hin : In t toks) :
  (type t = INDENT \/ type t = DEDENT -> value t = []) /\
  (type t = NEWLINE -> value t = [NL]).
Proof.
  apply tokenize_inv in Hok.
  destruct Hok as [st [_ [-> [_ [Ho _]]]]].
  apply in_app_or in Hin. destruct Hin as [Hin|[<-|[]]].
  - rewrite forallb_forall in Ho. specialize (Ho t Hin).
    unfold scanned_ok in Ho. split.
    + intros [E|E]; rewrite E in Ho; apply str_eqb_eq; exact Ho.
    + intros E; rewrite E in Ho; apply str_eqb_eq; exact Ho.
  - split; [intros [E|E]|intros E]; discriminate E.
Qed.

Lemma structural_token_values_witness :
  (type (mkToken [NL] NEWLINE) = INDENT \/
   type (mkToken [NL] NEWLINE) = DEDENT -> value (mkToken [NL] NEWLINE) = []) /\
  (type (mkToken [NL] NEWLINE) = NEWLINE ->
   value (mkToken [NL] NEWLINE) = [NL]).
Proof.
  apply (structural_token_values ascii_only
           (chars_of "a" ++ NL :: chars_of "    b" ++ NL :: chars_of "c")
           [mkToken (chars_of "a") IDENTIFIER; mkToken [NL] NEWLINE;
            mkToken [] INDENT; mkToken (chars_of "b") IDENTIFIER;
            mkToken [NL] NEWLINE; mkToken [] DEDENT;
            mkToken (chars_of "c") IDENTIFIER; EOF_token]
           (mkToken [NL] NEWLINE)).
  - vm_compute. reflexivity.
  - simpl. auto.
Defined.

(** ** Indentation *)

(** The newline iteration, outside brackets, on a candidate indentation
    more than one unit above the current level. *)
Lemma newline_mode_jump (st : State) (c : char) (rest : list char) :
  any_bracket_level st = 0 ->
  fst (scan_indent 0 rest) > last_indent_level st + 1 ->
  newline_mode st c rest = Raise IndentationError.
Proof.
  intros Hb Hj. unfold newline_mode.
  destruct (scan_indent 0 rest) as [ind cs]. simpl in Hj.
  rewrite Hb. simpl.
  destruct (Z.gtb_spec ind (last_indent_level st)); [|lia].
  destruct (Z.eqb_spec (last_indent_level st - ind) (-1)); [lia|].
  reflexivity.
Qed.

Lemma body_newline (U : Unicode) (st : State) (rest : list char) :
  chars st = NL :: rest -> body U st = newline_mode st NL rest.
Proof. intros Hc. unfold body. rewrite Hc. reflexivity. Qed.

Lemma steps_reaches (U : Unicode) (n : nat) :
  forall st st', steps U n st = Ok st' -> reaches U st st'.
Proof.
  induction n as [|n IH]; intros st st' H; simpl in H.
  - inversion H. apply reaches_here.
  - destruct (chars st) eqn:E; [inversion H; apply reaches_here|].
    destruct (body U st) as [st1| |] eqn:Eb; simpl in H; try discriminate.
    apply (reaches_step U st st1 st'); [congruence|exact Eb|].
    apply IH. exact H.
Qed.

(** C3: whenever the main loop scans a newline with the bracket level at
    0 and the candidate indentation is more than one unit above the
    current level, tokenize raises IndentationError (and so returns no
    tokens); the two-unit jump of the specification's scenario does. *)
Theorem indent_jump_raises :
  (forall (U : Unicode) (source_code : str) (st : State) (rest : list char),
     reaches U (init source_code) st ->
     chars st = NL :: rest ->
     any_bracket_level st = 0 ->
     fst (scan_indent 0 rest) > last_indent_level st + 1 ->
     tokenize U source_code = Raise IndentationError) /\
  (forall U : Unicode,
     tokenize U (chars_of "let x = 5" ++ NL :: chars_of "        y = 2") =
     Raise IndentationError).
Proof.
  split.
  - intros U src st rest Hr Hc Hb Hj.
    apply (reaches_raise U src st IndentationError Hr).
    + rewrite Hc. discriminate.
    + rewrite (body_newline U st rest Hc). apply newline_mode_jump; assumption.
  - intros U. rewrite tokenize_ascii by reflexivity. vm_compute. reflexivity.
Qed.

Lemma indent_jump_raises_witness :
  tokenize ascii_only
    (chars_of "let x = 5" ++ NL :: chars_of "    y = 2" ++
     NL :: chars_of "            z = 3") =
  Raise IndentationError.
Proof.
  apply (proj1 indent_jump_raises ascii_only _
           (mkState (NL :: chars_of "            z = 3") 0 1
              [mkToken (chars_of "let") LET; mkToken (chars_of "x") IDENTIFIER;
               mkToken (chars_of "=") EQUALS; mkToken (chars_of "5") INT;
               mkToken [NL] NEWLINE; mkToken [] INDENT;
               mkToken (chars_of "y") IDENTIFIER;
               mkToken (chars_of "=") EQUALS; mkToken (chars_of "2") INT])
           (chars_of "            z = 3")).
  - apply (steps_reaches ascii_only 13). vm_compute. reflexivity.
  - reflexivity.
  - reflexivity.
  - vm_compute. reflexivity.
Defined.

(** C4: a newline scanned while the bracket level is positive appends no
    token and leaves the indentation level (and the bracket level)
    unchanged; only the newline and the following four-space runs are
    consumed.  The parenthesised scenario yields OPEN_PAREN, INT,
    CLOSE_PAREN, EOF and no structural token. *)
Theorem bracketed_newline_discarded :
  (forall (U : Unicode) (st : State) (rest : list char),
     chars st = NL :: rest ->
     any_bracket_level st > 0 ->
     body U st =
     Ok (mkState (snd (scan_indent 0 rest)) (any_bracket_level st)
           (last_indent_level st) (token_stream st))) /\
  (forall U : Unicode,
     tokenize U (chars_of "(" ++ NL :: chars_of "    1" ++ NL :: chars_of ")") =
     Ok [mkToken (chars_of "(") OPEN_PAREN; mkToken (chars_of "1") INT;
         mkToken (chars_of ")") CLOSE_PAREN; EOF_token]).
Proof.
  split.
  - intros U st rest Hc Hb.
    rewrite (body_newline U st rest Hc). unfold newline_mode.
    destruct (scan_indent 0 rest) as [ind cs]. simpl.
    destruct (Z.gtb_spec (any_bracket_level st) 0); [reflexivity|lia].
  - intros U. rewrite tokenize_ascii by reflexivity. vm_compute. reflexivity.
Qed.

Lemma bracketed_newline_discarded_witness :
  body ascii_only
    (mkState (NL :: chars_of "        1") 1 0
       [mkToken (chars_of "(") OPEN_PAREN]) =
  Ok (mkState (chars_of "1") 1 0 [mkToken (chars_of "(") OPEN_PAREN]).
Proof.
  apply (proj1 bracketed_newline_discarded ascii_only
           (mkState (NL :: chars_of "        1") 1 0
              [mkToken (chars_of "(") OPEN_PAREN])
           (chars_of "        1")).
  - reflexivity.
  - reflexivity.
Defined.

(** C5: on success, the number of INDENT tokens minus the number of
    DEDENT tokens of the output is the value of [last_indent_level] when
    the loop stops; nothing closes the indentation left open at the end of
    the input, so the difference can be positive. *)
Theorem indent_balance_is_final_level :
  (forall (U : Unicode) (source_code : str) (toks : list Token),
     tokenize U source_code = Ok toks ->
     exists st, final_state U source_code = Ok st /\
                count INDENT toks - count DEDENT toks = last_indent_level st) /\
  (forall U : Unicode,
     tokenize U (chars_of "a" ++ NL :: chars_of "    b") =
     Ok [mkToken (chars_of "a") IDENTIFIER; mkToken [NL] NEWLINE;
         mkToken [] INDENT; mkToken (chars_of "b") IDENTIFIER; EOF_token] /\
     exists st, final_state U (chars_of "a" ++ NL :: chars_of "    b") = Ok st /\
                last_indent_level st = 1).
Proof.
  split.
  - intros U src toks H. apply tokenize_inv in H.
    destruct H as [st [Hf [-> [_ [_ Hb]]]]].
    exists st. split; [exact Hf|].
    fold (indent_balance (token_stream st ++ [EOF_token])).
    rewrite indent_balance_app, Hb.
    change (indent_balance [EOF_token]) with 0. lia.
  - intros U. split.
    + rewrite tokenize_ascii by reflexivity. vm_compute. reflexivity.
    + unfold final_state. rewrite loop_ascii by reflexivity.
      eexists. split; [vm_compute; reflexivity|reflexivity].
Qed.

Lemma indent_balance_is_final_level_witness :
  exists st,
    final_state ascii_only
      (chars_of "a" ++ NL :: chars_of "    b" ++ NL :: chars_of "        c" ++
       NL :: chars_of "    d") = Ok st /\
    count INDENT
      [mkToken (chars_of "a") IDENTIFIER; mkToken [NL] NEWLINE;
       mkToken [] INDENT; mkToken (chars_of "b") IDENTIFIER;
       mkToken [NL] NEWLINE; mkToken [] INDENT;
       mkToken (chars_of "c") IDENTIFIER; mkToken [NL] NEWLINE;
       mkToken [] DEDENT; mkToken (chars_of "d") IDENTIFIER; EOF_token] -
    count DEDENT
      [mkToken (chars_of "a") IDENTIFIER; mkToken [NL] NEWLINE;
       mkToken [] INDENT; mkToken (chars_of "b") IDENTIFIER;
       mkToken [NL] NEWLINE; mkToken [] INDENT;
       mkToken (chars_of "c") IDENTIFIER; mkToken [NL] NEWLINE;
       mkToken [] DEDENT; mkToken (chars_of "d") IDENTIFIER; EOF_token] =
    last_indent_level st.
Proof.
  apply (proj1 indent_balance_is_final_level ascii_only).
  vm_compute. reflexivity.
Defined.

(** C6: on success (the empty input included) the output is not empty,
    it ends with the EOF token of empty value, and that is its only EOF
    token: nothing before it has type EOF and nothing follows it. *)
Theorem eof_last_and_only :
  (forall (U : Unicode) (source_code : str) (toks : list Token),
     tokenize U source_code = Ok toks ->
     toks <> [] /\
     last toks (mkToken [] INT) = mkToken [] EOF /\
     count EOF toks = 1 /\
     exists scanned, toks = scanned ++ [mkToken [] EOF] /\
                     forall t, In t scanned -> type t <> EOF) /\
  (forall U : Unicode, tokenize U [] = Ok [mkToken [] EOF]).
Proof.
  split; [|reflexivity].
  intros U src toks H. apply tokenize_inv in H.
  destruct H as [st [_ [-> [_ [Ho _]]]]].
  assert (Hno : forall t, In t (token_stream st) -> type t <> EOF).
  { intros t Hin E. rewrite forallb_forall in Ho. specialize (Ho t Hin).
    unfold scanned_ok in Ho. rewrite E in Ho. discriminate. }
  split; [intros E; apply app_eq_nil in E; destruct E; discriminate|].
  split; [apply last_last|].
  split.
  - rewrite count_app. change (count EOF [EOF_token]) with 1.
    unfold count.
    replace (filter (fun t => type_eqb (type t) EOF) (token_stream st))
      with (@nil Token); [reflexivity|].
    symmetry. induction (token_stream st) as [|t ts IH]; [reflexivity|].
    simpl. unfold type_eqb at 1.
    destruct (TokenType_eq_dec (type t) EOF) as [E|_].
    + exfalso. apply (Hno t); [left; reflexivity|exact E].
    + apply IH.
      * simpl in Ho. apply andb_prop in Ho. apply Ho.
      * intros u Hu. apply Hno. right. exact Hu.
  - exists (token_stream st). split; [reflexivity|exact Hno].
Qed.

Lemma eof_last_and_only_witness :
  [mkToken (chars_of "3.14") FLOAT; mkToken [] EOF] <> [] /\
  last [mkToken (chars_of "3.14") FLOAT; mkToken [] EOF] (mkToken [] INT) =
    mkToken [] EOF /\
  count EOF [mkToken (chars_of "3.14") FLOAT; mkToken [] EOF] = 1 /\
  exists scanned,
    [mkToken (chars_of "3.14") FLOAT; mkToken [] EOF] =
      scanned ++ [mkToken [] EOF] /\
    forall t, In t scanned -> type t <> EOF.
Proof.
  apply (proj1 eof_last_and_only ascii_only (chars_of "3.14")).
  vm_compute. reflexivity.
Defined.

(** ** String literals *)

Lemma body_quote (U : Unicode) (st : State) (q : char) (rest : list char) :
  is_quote q = true -> chars st = q :: rest ->
  body U st = string_mode st q rest.
Proof.
  intros Hq Hc. unfold body. rewrite Hc.
  unfold is_quote in Hq. rewrite Hq.
  apply orb_prop in Hq.
  destruct Hq as [Hq|Hq]; apply N.eqb_eq in Hq; subst q; reflexivity.
Qed.

(** An iteration that starts at an opening quote whose closing quote is
    there: one STRING token with the text in between, nothing else
    touched. *)
Lemma string_iteration (U : Unicode) (st : State) (q : char)
  (text rest : list char) :
  is_quote q = true -> ~ In q text ->
  chars st = q :: text ++ q :: rest ->
  body U st =
  Ok (mkState rest (any_bracket_level st) (last_indent_level st)
        (token_stream st ++ [mkToken text STRING])).
Proof.
  intros Hq Hn Hc.
  rewrite (body_quote U st q _ Hq Hc). unfold string_mode.
  rewrite (scan_string_closed q text rest [] Hn). reflexivity.
Qed.

(** C7: a text without the chosen quote character, enclosed in a pair of
    that quote, is tokenized into one STRING token whose value is the text
    itself, character for character, and EOF. *)
Theorem string_literal_round_trip (U : Unicode) (q : char) (text : str)
  (Hq : q = SQUOTE \/ q = DQUOTE) (Hn : ~ In q text) :
  tokenize U (q :: text ++ [q]) = Ok [mkToken text STRING; EOF_token].
Proof.
  assert (Hq' : is_quote q = true) by (destruct Hq; subst q; reflexivity).
  unfold tokenize, final_state. simpl length.
  rewrite loop_unfold by discriminate.
  rewrite (string_iteration U (init (q :: text ++ [q])) q text [] Hq' Hn)
    by reflexivity.
  simpl. rewrite loop_done by reflexivity. reflexivity.
Qed.

Lemma string_literal_round_trip_witness :
  tokenize ascii_only (SQUOTE :: (chars_of "it" ++ DQUOTE :: NL :: chars_of " b") ++ [SQUOTE]) =
  Ok [mkToken (chars_of "it" ++ DQUOTE :: NL :: chars_of " b") STRING;
      EOF_token].
Proof.
  apply (string_literal_round_trip ascii_only SQUOTE
           (chars_of "it" ++ DQUOTE :: NL :: chars_of " b")).
  - left. reflexivity.
  - vm_compute. intros H.
    repeat (destruct H as [H|H]; [discriminate H|]). exact H.
Defined.

(** C8: when the main loop enters string mode and the rest of the input
    holds no character equal to the opening quote, tokenize raises the
    IndexError of [chars[0]] and returns no tokens. *)
Theorem unterminated_string_raises (U : Unicode) (source_code : str)
  (st : State) (q : char) (rest : list char)
  (Hr : reaches U (init source_code) st)
  (Hc : chars st = q :: rest)
  (Hq : q = SQUOTE \/ q = DQUOTE)
  (Hn : ~ In q rest) :
  tokenize U source_code = Raise IndexError.
Proof.
  assert (Hq' : is_quote q = true) by (destruct Hq; subst q; reflexivity).
  apply (reaches_raise U source_code st IndexError Hr).
  - rewrite Hc. discriminate.
  - rewrite (body_quote U st q rest Hq' Hc). unfold string_mode.
    rewrite (scan_string_open q rest [] Hn). reflexivity.
Qed.

Lemma unterminated_string_raises_witness :
  tokenize ascii_only (chars_of "x = " ++ DQUOTE :: chars_of "it's") =
  Raise IndexError.
Proof.
  apply (unterminated_string_raises ascii_only _
           (mkState (DQUOTE :: chars_of "it's") 0 0
              [mkToken (chars_of "x") IDENTIFIER;
               mkToken (chars_of "=") EQUALS])
           DQUOTE (chars_of "it's")).
  - apply (steps_reaches ascii_only 4). vm_compute. reflexivity.
  - reflexivity.
  - right. reflexivity.
  - vm_compute. intros H.
    repeat (destruct H as [H|H]; [discriminate H|]). exact H.
Defined.

(** C10: a newline between an opening quote and the next occurrence of
    the same quote goes into the STRING token's value as it is; the
    iteration appends that one STRING token and no NEWLINE, INDENT or
    DEDENT token, and leaves the indentation level and the bracket level
    as they were. *)
Theorem newline_inside_string_verbatim (U : Unicode) (st : State) (q : char)
  (text rest : list char)
  (Hq : q = SQUOTE \/ q = DQUOTE)
  (Hn : ~ In q text)
  (Hnl : In NL text)
  (Hc : chars st = q :: text ++ q :: rest) :
  body U st =
  Ok (mkState rest (any_bracket_level st) (last_indent_level st)
        (token_stream st ++ [mkToken text STRING])).
Proof.
  apply (string_iteration U st q text rest); try assumption.
  destruct Hq; subst q; reflexivity.
Qed.

Lemma newline_inside_string_verbatim_witness :
  body ascii_only
    (mkState (DQUOTE :: (chars_of "a" ++ NL :: chars_of "        b") ++
              DQUOTE :: chars_of " + 1") 0 1 [mkToken [] INDENT]) =
  Ok (mkState (chars_of " + 1") 0 1
        [mkToken [] INDENT;
         mkToken (chars_of "a" ++ NL :: chars_of "        b") STRING]).
Proof.
  apply (newline_inside_string_verbatim ascii_only
           (mkState (DQUOTE :: (chars_of "a" ++ NL :: chars_of "        b") ++
                     DQUOTE :: chars_of " + 1") 0 1 [mkToken [] INDENT])
           DQUOTE (chars_of "a" ++ NL :: chars_of "        b")
           (chars_of " + 1")).
  - right. reflexivity.
  - vm_compute. intros H.
    repeat (destruct H as [H|H]; [discriminate H|]). exact H.
  - vm_compute. right. left. reflexivity.
  - reflexivity.
Defined.

(** ** Termination *)

(** C9: tokenize terminates on every input, with a token sequence or
    with an exception: the main loop, given as many rounds as the input
    has characters, never runs out of them, and more rounds change
    nothing; each completed iteration of the main loop leaves strictly
    fewer characters than it found, and no iteration hangs in an inner
    loop. *)
Theorem tokenize_terminates :
  (forall (U : Unicode) (source_code : str),
     (exists toks, tokenize U source_code = Ok toks) \/
     (exists e, tokenize U source_code = Raise e)) /\
  (forall (U : Unicode) (source_code : str) (fuel : nat),
     (length source_code <= fuel)%nat ->
     loop U fuel (init source_code) = final_state U source_code) /\
  (forall (U : Unicode) (st st' : State),
     chars st <> [] -> body U st = Ok st' ->
     (length (chars st') < length (chars st))%nat) /\
  (forall (U : Unicode) (st : State),
     (exists st', body U st = Ok st') \/ (exists e, body U st = Raise e)).
Proof.
  split; [|split; [|split]].
  - intros U src. unfold tokenize.
    destruct (final_state U src) as [st|e|] eqn:E; simpl.
    + left. eexists. reflexivity.
    + right. eexists. reflexivity.
    + exfalso. unfold final_state in E.
      exact (proj2 (loop_fuel U (length src) (length src) (init src)
                      (le_n _) (le_n _)) E).
  - intros U src fuel Hf. unfold final_state.
    apply (loop_fuel U fuel (length src) (init src)); simpl; lia.
  - intros U st st' Hne Hb.
    destruct (body_effect U st st' Hne Hb) as [_ [_ [_ Hl]]]. exact Hl.
  - intros U st. destruct (body U st) as [st'|e|] eqn:E.
    + left. eexists. reflexivity.
    + right. eexists. reflexivity.
    + exfalso. exact (body_fuel U st E).
Qed.

Lemma tokenize_terminates_witness :
  (length (chars (mkState (chars_of " y") 0 0
                    [mkToken (chars_of "12.5") FLOAT])) <
   length (chars (init (chars_of "12.5 y"))))%nat.
Proof.
  apply (proj1 (proj2 (proj2 tokenize_terminates)) ascii_only
           (init (chars_of "12.5 y"))
           (mkState (chars_of " y") 0 0 [mkToken (chars_of "12.5") FLOAT])).
  - discriminate.
  - vm_compute. reflexivity.
Defined.

(** * Further properties of the lexer *)

(** ** The dispatcher *)

Lemma range_not_special (c : char) :
  (48 <= c <= 57 \/ 65 <= c <= 90 \/ 97 <= c <= 122 \/ 128 <= c)%N ->
  is_special c = false.
Proof.
  intros Hr. unfold is_special, is_quote, token_map.
  repeat match goal with
         | |- context [(c =? ?k)%N] =>
             destruct (N.eqb_spec c k) as [E|_];
             [exfalso; vm_compute in E; subst c; lia|]
         end.
  reflexivity.
Qed.

Lemma numeric_not_special (U : Unicode) (c : char) :
  isnumeric U c = true -> is_special c = false.
Proof.
  intros H. apply range_not_special.
  destruct (N.ltb_spec c 128) as [Hlt|Hge]; [|lia].
  rewrite (isnumeric_ascii U c Hlt) in H.
  apply ascii_digit_range in H. lia.
Qed.

Lemma alpha_not_special (U : Unicode) (c : char) :
  isalpha U c = true -> is_special c = false.
Proof.
  intros H. apply range_not_special.
  destruct (N.ltb_spec c 128) as [Hlt|Hge]; [|lia].
  rewrite (isalpha_ascii U c Hlt) in H.
  apply ascii_letter_range in H. lia.
Qed.

(** Past the special characters, the dispatcher chooses between number
    mode, word mode and the final [else]. *)
Lemma body_plain (U : Unicode) (st : State) (c : char) (rest : list char) :
  is_special c = false -> chars st = c :: rest ->
  body U st =
  if isnumeric U c then number_mode U st
  else if isalpha U c then word_mode U st
  else Raise (UnrecognizedCharacter c).
Proof.
  intros Hs Hc. unfold body. rewrite Hc. unfold is_special in Hs.
  apply orb_false_elim in Hs. destruct Hs as [Hs Htm].
  apply orb_false_elim in Hs. destruct Hs as [Hs Hq].
  apply orb_false_elim in Hs. destruct Hs as [Hsp Hnl].
  unfold is_quote in Hq. rewrite Hsp, Hnl, Hq.
  destruct (token_map c); [discriminate|reflexivity].
Qed.

(** ** Induction over the main loop *)

Lemma loop_invariant (U : Unicode) (P : State -> Prop) :
  (forall st st', chars st <> [] -> P st -> body U st = Ok st' -> P st') ->
  forall fuel st st', P st -> loop U fuel st = Ok st' -> P st'.
Proof.
  intros Hstep. induction fuel as [|fuel IH]; intros st st' HP H.
  - simpl in H. destruct (chars st); [|discriminate]. inversion H; subst.
    exact HP.
  - destruct (chars st) eqn:E.
    + rewrite loop_done in H by exact E. inversion H; subst. exact HP.
    + rewrite loop_unfold in H by congruence.
      destruct (body U st) as [st1| |] eqn:Eb; simpl in H; try discriminate.
      apply (IH st1 st'); [|exact H].
      apply (Hstep st st1); [congruence|exact HP|exact Eb].
Qed.

(** An exception that comes out of the loop was raised by an iteration
    that the loop reached. *)
Lemma loop_raise_inv (U : Unicode) (fuel : nat) :
  forall st e, loop U fuel st = Raise e ->
    exists st1, reaches U st st1 /\ chars st1 <> [] /\ body U st1 = Raise e.
Proof.
  induction fuel as [|fuel IH]; intros st e H.
  - simpl in H. destruct (chars st); discriminate.
  - destruct (chars st) eqn:E.
    + rewrite loop_done in H by exact E. discriminate.
    + rewrite loop_unfold in H by congruence.
      destruct (body U st) as [st1| |] eqn:Eb; simpl in H; try discriminate.
      * destruct (IH st1 e H) as [st2 [Hr [Hne Hb]]].
        exists st2. split; [|split; assumption].
        apply (reaches_step U st st1 st2); [congruence|exact Eb|exact Hr].
      * inversion H; subst e0. exists st.
        split; [apply reaches_here|]. split; [congruence|exact Eb].
Qed.

Lemma tokenize_raise_inv (U : Unicode) (source_code : str) (e : exn) :
  tokenize U source_code = Raise e ->
  exists st, reaches U (init source_code) st /\ chars st <> [] /\
             body U st = Raise e.
Proof.
  unfold tokenize, final_state. intros H.
  destruct (loop U (length source_code) (init source_code)) as [st| |] eqn:El;
    simpl in H; try discriminate.
  inversion H; subst e0. exact (loop_raise_inv U _ _ _ El).
Qed.

(** The loop that reaches a state without characters returns there. *)
Lemma reaches_final (U : Unicode) (source_code : str) (st : State) :
  reaches U (init source_code) st -> chars st = [] ->
  tokenize U source_code = Ok (token_stream st ++ [EOF_token]).
Proof.
  intros Hr Hc. unfold tokenize, final_state.
  change (length source_code) with (length (chars (init source_code))).
  rewrite (reaches_loop U _ _ Hr), loop_done by exact Hc. reflexivity.
Qed.

Lemma reaches_trans (U : Unicode) (a b c : State) :
  reaches U a b -> reaches U b c -> reaches U a c.
Proof.
  induction 1 as [st|st st1 st2 Hne Hb _ IH]; intros H; [exact H|].
  apply (reaches_step U st st1 c Hne Hb). apply IH. exact H.
Qed.

Lemma reaches_one (U : Unicode) (a b : State) :
  chars a <> [] -> body U a = Ok b -> reaches U a b.
Proof.
  intros Hne Hb. apply (reaches_step U a b b Hne Hb). apply reaches_here.
Qed.

(** ** Numbers *)

Lemma period_not_numeric (U : Unicode) : isnumeric U PERIOD_CHAR = false.
Proof. rewrite isnumeric_ascii by reflexivity. reflexivity. Qed.

Lemma numeric_not_period (U : Unicode) (c : char) :
  isnumeric U c = true -> (c =? PERIOD_CHAR)%N = false.
Proof.
  intros H. destruct (N.eqb_spec c PERIOD_CHAR) as [->|]; [|reflexivity].
  rewrite period_not_numeric in H. discriminate.
Qed.

(** Every text splits into its longest numeric prefix and the rest. *)
Lemma numeric_span (U : Unicode) (cs : list char) :
  exists d rest, cs = d ++ rest /\ numeric_run U d = true /\
                 ends_float U rest = true.
Proof.
  induction cs as [|c cs [d [rest [E [Hd Hr]]]]].
  - exists [], []. auto.
  - destruct (isnumeric U c) eqn:Ec.
    + exists (c :: d), rest. simpl. rewrite Ec, Hd, E. auto.
    + exists [], (c :: cs). simpl. rewrite Ec. auto.
Qed.

Lemma scan_number_fraction (U : Unicode) (d rest : list char) :
  numeric_run U d = true -> ends_float U rest = true ->
  forall acc, scan_number U true acc (d ++ rest) = (acc ++ d, true, rest).
Proof.
  intros Hd Hr. induction d as [|c d IH]; intros acc.
  - simpl. rewrite app_nil_r. destruct rest as [|c r]; [reflexivity|].
    simpl in *. apply negb_true_iff in Hr. rewrite Hr. simpl.
    destruct (c =? PERIOD_CHAR)%N; reflexivity.
  - simpl in Hd. apply andb_prop in Hd. destruct Hd as [Hc Hd].
    simpl. rewrite Hc. simpl.
    replace (if (c =? PERIOD_CHAR)%N then true else true) with true
      by (destruct (c =? PERIOD_CHAR)%N; reflexivity).
    rewrite (IH Hd), <- app_assoc. reflexivity.
Qed.

Lemma scan_number_integer (U : Unicode) (d rest : list char) :
  numeric_run U d = true -> ends_int U rest = true ->
  forall acc, scan_number U false acc (d ++ rest) = (acc ++ d, false, rest).
Proof.
  intros Hd Hr. induction d as [|c d IH]; intros acc.
  - simpl. rewrite app_nil_r. destruct rest as [|c r]; [reflexivity|].
    simpl in *. apply negb_true_iff in Hr. rewrite Hr. reflexivity.
  - simpl in Hd. apply andb_prop in Hd. destruct Hd as [Hc Hd].
    simpl. rewrite Hc, (numeric_not_period U c Hc). simpl.
    rewrite (IH Hd), <- app_assoc. reflexivity.
Qed.

Lemma scan_number_float (U : Unicode) (d1 d2 rest : list char) :
  numeric_run U d1 = true -> numeric_run U d2 = true ->
  ends_float U rest = true ->
  forall acc,
    scan_number U false acc (d1 ++ PERIOD_CHAR :: d2 ++ rest) =
    (acc ++ d1 ++ PERIOD_CHAR :: d2, true, rest).
Proof.
  intros H1 H2 Hr. induction d1 as [|c d IH]; intros acc.
  - simpl app. cbn [scan_number]. rewrite N.eqb_refl, orb_true_r. simpl andb.
    cbv iota. rewrite (scan_number_fraction U d2 rest H2 Hr).
    rewrite <- app_assoc. reflexivity.
  - simpl in H1. apply andb_prop in H1. destruct H1 as [Hc H1].
    simpl. rewrite Hc, (numeric_not_period U c Hc). simpl.
    rewrite (IH H1), <- app_assoc. reflexivity.
Qed.

Lemma numeric_head (U : Unicode) (d rest : list char) :
  numeric_run U d = true -> d <> [] ->
  exists c tl, d ++ rest = c :: tl /\ isnumeric U c = true.
Proof.
  intros Hd Hne. destruct d as [|c d]; [congruence|].
  simpl in Hd. apply andb_prop in Hd. exists c, (d ++ rest). tauto.
Qed.

Lemma body_number (U : Unicode) (st : State) (d rest : list char) :
  numeric_run U d = true -> d <> [] -> chars st = d ++ rest ->
  body U st = number_mode U st.
Proof.
  intros Hd Hne Hc.
  destruct (numeric_head U d rest Hd Hne) as [c [tl [E Hn]]].
  rewrite E in Hc.
  rewrite (body_plain U st c tl (numeric_not_special U c Hn) Hc), Hn.
  reflexivity.
Qed.

Lemma body_integer (U : Unicode) (d : str) (st : State) (rest : list char) :
  numeric_run U d = true -> d <> [] ->
  chars st = d ++ rest -> ends_int U rest = true ->
  body U st =
  Ok (mkState rest (any_bracket_level st) (last_indent_level st)
        (token_stream st ++ [mkToken d INT])).
Proof.
  intros Hd Hne Hc Hr.
  rewrite (body_number U st d rest Hd Hne Hc). unfold number_mode.
  rewrite Hc, (scan_number_integer U d rest Hd Hr). reflexivity.
Qed.

Lemma body_float (U : Unicode) (d1 d2 : str) (st : State) (rest : list char) :
  numeric_run U d1 = true -> d1 <> [] -> numeric_run U d2 = true ->
  chars st = d1 ++ PERIOD_CHAR :: d2 ++ rest -> ends_float U rest = true ->
  body U st =
  Ok (mkState rest (any_bracket_level st) (last_indent_level st)
        (token_stream st ++ [mkToken (d1 ++ PERIOD_CHAR :: d2) FLOAT])).
Proof.
  intros H1 Hne H2 Hc Hr.
  rewrite (body_number U st d1 _ H1 Hne Hc). unfold number_mode.
  rewrite Hc, (scan_number_float U d1 d2 rest H1 H2 Hr). reflexivity.
Qed.

(** A non-empty run of numeric characters that does not go on with a
    numeric character or a period is consumed whole and appended as one
    INT token; alone, it is tokenized into that token and EOF. *)
Theorem integer_literal (U : Unicode) (d : str)
  (Hd : numeric_run U d = true) (Hne : d <> []) :
  (forall (st : State) (rest : list char),
     chars st = d ++ rest -> ends_int U rest = true ->
     body U st =
     Ok (mkState rest (any_bracket_level st) (last_indent_level st)
           (token_stream st ++ [mkToken d INT]))) /\
  tokenize U d = Ok [mkToken d INT; EOF_token].
Proof.
  split; [intros st rest; apply body_integer; assumption|].
  apply (reaches_final U d
           (mkState [] 0 0 [mkToken d INT])); [|reflexivity].
  apply reaches_one; [simpl; exact Hne|].
  exact (body_integer U d (init d) [] Hd Hne (eq_sym (app_nil_r d)) eq_refl).
Qed.

Lemma integer_literal_witness :
  tokenize ascii_only (chars_of "2024") =
  Ok [mkToken (chars_of "2024") INT; EOF_token].
Proof.
  apply (proj2 (integer_literal ascii_only (chars_of "2024") eq_refl
                  ltac:(discriminate))).
Defined.

(** A non-empty run of numeric characters, a period and a run of numeric
    characters (empty or not), not going on with a numeric character, are
    consumed whole and appended as one FLOAT token; the period may be the
    last character of the literal. *)
Theorem float_literal (U : Unicode) (d1 d2 : str)
  (H1 : numeric_run U d1 = true) (Hne : d1 <> [])
  (H2 : numeric_run U d2 = true) :
  (forall (st : State) (rest : list char),
     chars st = d1 ++ PERIOD_CHAR :: d2 ++ rest ->
     ends_float U rest = true ->
     body U st =
     Ok (mkState rest (any_bracket_level st) (last_indent_level st)
           (token_stream st ++ [mkToken (d1 ++ PERIOD_CHAR :: d2) FLOAT]))) /\
  tokenize U (d1 ++ PERIOD_CHAR :: d2) =
  Ok [mkToken (d1 ++ PERIOD_CHAR :: d2) FLOAT; EOF_token].
Proof.
  split; [intros st rest; apply body_float; assumption|].
  apply (reaches_final U _
           (mkState [] 0 0 [mkToken (d1 ++ PERIOD_CHAR :: d2) FLOAT]));
    [|reflexivity].
  apply reaches_one; [simpl; destruct d1; [congruence|discriminate]|].
  apply (body_float U d1 d2 (init (d1 ++ PERIOD_CHAR :: d2)) [] H1 Hne H2);
    [|reflexivity].
  simpl. rewrite app_nil_r. reflexivity.
Qed.

Lemma float_literal_witness :
  tokenize ascii_only (chars_of "10.") =
  Ok [mkToken (chars_of "10.") FLOAT; EOF_token].
Proof.
  apply (proj2 (float_literal ascii_only (chars_of "10") [] eq_refl
                  ltac:(discriminate) eq_refl)).
Defined.

Lemma body_period (U : Unicode) (st : State) (rest : list char) :
  chars st = PERIOD_CHAR :: rest ->
  body U st =
  Ok (mkState rest (any_bracket_level st) (last_indent_level st)
        (token_stream st ++ [mkToken [PERIOD_CHAR] PERIOD])).
Proof. intros Hc. unfold body. rewrite Hc. reflexivity. Qed.

(** A number holds one period at most: the second period of a literal
    ends the FLOAT token and is a PERIOD token of its own, and the digits
    after it are an INT token.  A period before the first digit is a
    PERIOD token as well. *)
Theorem second_period_splits (U : Unicode) (d1 d2 d3 : str)
  (H1 : numeric_run U d1 = true) (Hne1 : d1 <> [])
  (H2 : numeric_run U d2 = true)
  (H3 : numeric_run U d3 = true) (Hne3 : d3 <> []) :
  tokenize U (d1 ++ PERIOD_CHAR :: d2 ++ PERIOD_CHAR :: d3) =
  Ok [mkToken (d1 ++ PERIOD_CHAR :: d2) FLOAT;
      mkToken [PERIOD_CHAR] PERIOD; mkToken d3 INT; EOF_token] /\
  tokenize U (PERIOD_CHAR :: d3) =
  Ok [mkToken [PERIOD_CHAR] PERIOD; mkToken d3 INT; EOF_token].
Proof.
  pose proof (fun st rest => body_integer U d3 st rest H3 Hne3) as Hint.
  pose proof (fun st rest => body_float U d1 d2 st rest H1 Hne1 H2) as Hfloat.
  assert (Hp : ends_float U (PERIOD_CHAR :: d3) = true)
    by (simpl; rewrite period_not_numeric; reflexivity).
  split.
  - apply (reaches_final U _
             (mkState [] 0 0
                [mkToken (d1 ++ PERIOD_CHAR :: d2) FLOAT;
                 mkToken [PERIOD_CHAR] PERIOD; mkToken d3 INT]));
      [|reflexivity].
    apply (reaches_step U _
             (mkState (PERIOD_CHAR :: d3) 0 0
                [mkToken (d1 ++ PERIOD_CHAR :: d2) FLOAT])).
    { simpl. destruct d1; [congruence|discriminate]. }
    { exact (Hfloat (init (d1 ++ PERIOD_CHAR :: d2 ++ PERIOD_CHAR :: d3))
               (PERIOD_CHAR :: d3) eq_refl Hp). }
    apply (reaches_step U _
             (mkState d3 0 0
                [mkToken (d1 ++ PERIOD_CHAR :: d2) FLOAT;
                 mkToken [PERIOD_CHAR] PERIOD])).
    { discriminate. }
    { exact (body_period U
               (mkState (PERIOD_CHAR :: d3) 0 0
                  [mkToken (d1 ++ PERIOD_CHAR :: d2) FLOAT]) d3 eq_refl). }
    apply reaches_one; [exact Hne3|].
    exact (Hint (mkState d3 0 0
                   [mkToken (d1 ++ PERIOD_CHAR :: d2) FLOAT;
                    mkToken [PERIOD_CHAR] PERIOD]) []
             (eq_sym (app_nil_r d3)) eq_refl).
  - apply (reaches_final U _
             (mkState [] 0 0
                [mkToken [PERIOD_CHAR] PERIOD; mkToken d3 INT]));
      [|reflexivity].
    apply (reaches_step U _
             (mkState d3 0 0 [mkToken [PERIOD_CHAR] PERIOD])).
    { discriminate. }
    { exact (body_period U (init (PERIOD_CHAR :: d3)) d3 eq_refl). }
    apply reaches_one; [exact Hne3|].
    exact (Hint (mkState d3 0 0 [mkToken [PERIOD_CHAR] PERIOD]) []
             (eq_sym (app_nil_r d3)) eq_refl).
Qed.

Lemma second_period_splits_witness :
  tokenize ascii_only (chars_of "1.2.3") =
  Ok [mkToken (chars_of "1.2") FLOAT; mkToken (chars_of ".") PERIOD;
      mkToken (chars_of "3") INT; EOF_token].
Proof.
  apply (proj1 (second_period_splits ascii_only (chars_of "1") (chars_of "2")
                  (chars_of "3") eq_refl ltac:(discriminate) eq_refl eq_refl
                  ltac:(discriminate))).
Defined.

(** ** Words of any alphabet *)

Lemma scan_word_taken (U : Unicode) (v rest : list char) :
  word_run U v = true -> ends_run U rest = true ->
  forall acc, scan_word U acc (v ++ rest) = (acc ++ v, rest).
Proof.
  intros Hv Hr. induction v as [|c v IH]; intros acc.
  - simpl. rewrite app_nil_r. destruct rest as [|d rest]; [reflexivity|].
    simpl in *. apply negb_true_iff in Hr. rewrite Hr. reflexivity.
  - simpl in Hv. apply andb_prop in Hv. destruct Hv as [Hc Hv].
    simpl. rewrite Hc, (IH Hv), <- app_assoc. reflexivity.
Qed.

(** Every text splits into the longest prefix that the word loop takes
    and the rest. *)
Lemma word_span (U : Unicode) (cs : list char) :
  exists v rest, cs = v ++ rest /\ word_run U v = true /\
                 ends_run U rest = true.
Proof.
  induction cs as [|c cs [v [rest [E [Hv Hr]]]]].
  - exists [], []. auto.
  - destruct (isalnum U c || (c =? UNDERSCORE)%N) eqn:Ec.
    + exists (c :: v), rest. simpl. rewrite Ec, Hv, E. auto.
    + exists [], (c :: cs). simpl. rewrite Ec. auto.
Qed.

Lemma word_mode_word (U : Unicode) (st : State) (v rest : list char) :
  word_run U v = true -> ends_run U rest = true -> chars st = v ++ rest ->
  word_mode U st =
  Ok (mkState rest (any_bracket_level st) (last_indent_level st)
        (token_stream st ++ [mkToken v (word_type v)])).
Proof.
  intros Hv Hr Hc. unfold word_mode, word_type, KEYWORDS.
  rewrite Hc, (scan_word_taken U v rest Hv Hr []). simpl app.
  destruct (str_eqb v (chars_of "true") || str_eqb v (chars_of "false"));
    [reflexivity|].
  destruct (str_eqb v (chars_of "let")); [reflexivity|].
  destruct (str_eqb v (chars_of "mut")); reflexivity.
Qed.

Lemma body_word (U : Unicode) (c : char) (tl : str) (st : State)
  (rest : list char) :
  isalpha U c = true -> isnumeric U c = false -> word_run U tl = true ->
  chars st = (c :: tl) ++ rest -> ends_run U rest = true ->
  body U st =
  Ok (mkState rest (any_bracket_level st) (last_indent_level st)
        (token_stream st ++ [mkToken (c :: tl) (word_type (c :: tl))])).
Proof.
  intros Hc Hn Htl Hch Hr.
  assert (Hv : word_run U (c :: tl) = true).
  { simpl. rewrite (isalpha_isalnum U c Hc), Htl. reflexivity. }
  rewrite (body_plain U st c (tl ++ rest) (alpha_not_special U c Hc) Hch).
  rewrite Hc, Hn. apply word_mode_word; assumption.
Qed.

(** A word starts with an alphabetic character that is not numeric as
    well (the dispatcher tries [isnumeric] first) and goes on with
    alphanumeric characters and underscores, as far as they go.  The
    iteration that stands at a word consumes it whole and appends one
    token whose value is the word and whose type is BOOLEAN for true and
    false, LET for let, MUT for mut, and IDENTIFIER for any other word;
    alone, the word is tokenized into that token and EOF. *)
Theorem word_token (U : Unicode) (c : char) (tl : str)
  (Hc : isalpha U c = true) (Hn : isnumeric U c = false)
  (Htl : word_run U tl = true) :
  (forall (st : State) (rest : list char),
     chars st = (c :: tl) ++ rest -> ends_run U rest = true ->
     body U st =
     Ok (mkState rest (any_bracket_level st) (last_indent_level st)
           (token_stream st ++ [mkToken (c :: tl) (word_type (c :: tl))]))) /\
  tokenize U (c :: tl) =
  Ok [mkToken (c :: tl) (word_type (c :: tl)); EOF_token].
Proof.
  split; [intros st rest; apply body_word; assumption|].
  apply (reaches_final U _
           (mkState [] 0 0 [mkToken (c :: tl) (word_type (c :: tl))]));
    [|reflexivity].
  apply reaches_one; [discriminate|].
  exact (body_word U c tl (init (c :: tl)) [] Hc Hn Htl
           (eq_sym (app_nil_r (c :: tl))) eq_refl).
Qed.

Lemma word_token_witness :
  tokenize ascii_only (chars_of "mut") =
  Ok [mkToken (chars_of "mut") MUT; EOF_token].
Proof.
  apply (proj2 (word_token ascii_only (ord "m") (chars_of "ut")
                  eq_refl eq_refl eq_refl)).
Defined.

(** ** Newlines outside brackets *)

Lemma newline_mode_outside (st : State) (c : char) (rest : list char) :
  any_bracket_level st <= 0 ->
  fst (scan_indent 0 rest) <= last_indent_level st + 1 ->
  newline_mode st c rest =
  Ok (mkState (snd (scan_indent 0 rest)) (any_bracket_level st)
        (fst (scan_indent 0 rest))
        (token_stream st ++
           newline_tokens c (last_indent_level st) (fst (scan_indent 0 rest)))).
Proof.
  intros Hb Hj. unfold newline_mode, newline_tokens.
  destruct (scan_indent 0 rest) as [cand cs]. simpl in *.
  destruct (Z.gtb_spec (any_bracket_level st) 0); [lia|].
  destruct (Z.gtb_spec cand (last_indent_level st)) as [Hgt|Hle].
  - destruct (Z.eqb_spec (last_indent_level st - cand) (-1)); [|lia].
    simpl. rewrite dedent_loop_spec by lia. simpl.
    replace (Z.to_nat (cand - cand)) with O by lia. simpl.
    rewrite app_nil_r, <- app_assoc. do 2 f_equal. lia.
  - simpl. rewrite dedent_loop_spec by lia. simpl.
    rewrite <- app_assoc. do 2 f_equal. lia.
Qed.

(** Outside brackets, a newline whose line is indented by at most one
    unit more than the current level appends NEWLINE, then INDENT if the
    line is one unit deeper, or else one DEDENT for each unit the line is
    shallower (none if it is level); the level becomes that of the line,
    whatever it was. *)
Theorem newline_outside_brackets (U : Unicode) (st : State)
  (rest : list char)
  (Hc : chars st = NL :: rest)
  (Hb : any_bracket_level st <= 0)
  (Hj : fst (scan_indent 0 rest) <= last_indent_level st + 1) :
  body U st =
  Ok (mkState (snd (scan_indent 0 rest)) (any_bracket_level st)
        (fst (scan_indent 0 rest))
        (token_stream st ++
           mkToken [NL] NEWLINE ::
           (if fst (scan_indent 0 rest) >? last_indent_level st
            then [mkToken [] INDENT]
            else repeat (mkToken [] DEDENT)
                   (Z.to_nat (last_indent_level st -
                              fst (scan_indent 0 rest)))))).
Proof.
  rewrite (body_newline U st rest Hc).
  exact (newline_mode_outside st NL rest Hb Hj).
Qed.

Lemma newline_outside_brackets_witness :
  body ascii_only
    (mkState (NL :: chars_of "    return") 0 3 [mkToken (chars_of "x") IDENTIFIER]) =
  Ok (mkState (chars_of "return") 0 1
        [mkToken (chars_of "x") IDENTIFIER; mkToken [NL] NEWLINE;
         mkToken [] DEDENT; mkToken [] DEDENT]).
Proof.
  apply (newline_outside_brackets ascii_only
           (mkState (NL :: chars_of "    return") 0 3
              [mkToken (chars_of "x") IDENTIFIER])
           (chars_of "    return")).
  - reflexivity.
  - vm_compute. discriminate.
  - vm_compute. discriminate.
Defined.

(** ** Spaces *)

Lemma scan_indent_units (rest : list char) (r : nat) :
  ends_spaces rest = true -> (r < 4)%nat ->
  forall (q : nat) (acc : Z),
    scan_indent acc (repeat SPACE (4 * q + r) ++ rest) =
    (acc + Z.of_nat q, repeat SPACE r ++ rest).
Proof.
  intros Hr Hlt. induction q as [|q IH]; intros acc.
  - rewrite Z.add_0_r. simpl Nat.add.
    destruct rest as [|c rest'].
    + destruct r as [|[|[|[|r]]]]; try lia; reflexivity.
    + simpl in Hr. apply negb_true_iff in Hr.
      destruct r as [|[|[|[|r]]]]; try lia; simpl;
        destruct rest' as [|b [|c' [|d tl']]]; try reflexivity;
        rewrite ?Hr, ?andb_false_r; reflexivity.
  - replace (4 * S q + r)%nat with (4 + (4 * q + r))%nat by lia.
    change (repeat SPACE (4 + (4 * q + r)))
      with (SPACE :: SPACE :: SPACE :: SPACE :: repeat SPACE (4 * q + r)).
    cbn [app scan_indent]. rewrite N.eqb_refl. cbn [andb].
    rewrite IH. f_equal. lia.
Qed.

(** The indentation of a line that starts with [n] spaces is [n / 4]
    units: the indentation loop takes the spaces four by four and leaves
    the [n mod 4] spare ones in the input. *)
Theorem indentation_units (n : nat) (rest : list char)
  (Hr : ends_spaces rest = true) :
  scan_indent 0 (repeat SPACE n ++ rest) =
  (Z.of_nat (n / 4), repeat SPACE (n mod 4) ++ rest).
Proof.
  rewrite (Nat.div_mod_eq n 4) at 1.
  apply (scan_indent_units rest (n mod 4) Hr).
  apply Nat.mod_upper_bound. discriminate.
Qed.

Lemma indentation_units_witness :
  scan_indent 0 (repeat SPACE 10 ++ chars_of "x") =
  (2, chars_of "  x").
Proof.
  apply (indentation_units 10 (chars_of "x")). reflexivity.
Defined.

Lemma reaches_spaces (U : Unicode) (n : nat) (rest : list char)
  (a l : Z) (ts : list Token) :
  reaches U (mkState (repeat SPACE n ++ rest) a l ts) (mkState rest a l ts).
Proof.
  induction n as [|n IH]; [apply reaches_here|].
  apply (reaches_step U _ (mkState (repeat SPACE n ++ rest) a l ts));
    [discriminate|reflexivity|exact IH].
Qed.

Lemma reaches_same_outcome (U : Unicode) (a b : str) :
  reaches U (init a) (init b) -> tokenize U a = tokenize U b.
Proof.
  intros Hr. unfold tokenize, final_state.
  change (length a) with (length (chars (init a))).
  rewrite (reaches_loop U _ _ Hr). reflexivity.
Qed.

(** Spaces at the very start of the input are skipped one by one and
    change nothing, not even the indentation: the outcome, tokens or
    exception, is that of the input without them. *)
Theorem leading_spaces_ignored (U : Unicode) (n : nat) (source_code : str) :
  tokenize U (repeat SPACE n ++ source_code) = tokenize U source_code.
Proof. apply reaches_same_outcome. apply reaches_spaces. Qed.

(** ** The iterations of the main loop, as rules *)

Lemma token_map_key (c : char) (ty : TokenType) :
  token_map c = Some ty ->
  (c =? SPACE)%N = false /\ (c =? NL)%N = false /\ is_quote c = false.
Proof.
  unfold token_map.
  repeat match goal with
         | |- context [(c =? ?k)%N] =>
             destruct (N.eqb_spec c k) as [->|_];
             [intros _; repeat split; reflexivity|]
         end.
  discriminate.
Qed.

Lemma body_symbol (U : Unicode) (st : State) (c : char) (ty : TokenType)
  (rest : list char) :
  token_map c = Some ty -> chars st = c :: rest ->
  body U st =
  Ok (mkState rest (any_bracket_level st + bracket_step c)
        (last_indent_level st) (token_stream st ++ [mkToken [c] ty])).
Proof.
  intros Htm Hc. unfold body. rewrite Hc.
  destruct (token_map_key c ty Htm) as [Hsp [Hnl Hq]].
  unfold is_quote in Hq. rewrite Hsp, Hnl, Hq, Htm.
  unfold symbol_mode, bracket_step. do 2 f_equal.
  destruct (is_open_bracket c); [reflexivity|].
  destruct (is_close_bracket c); lia.
Qed.

Lemma newline_mode_raise (st : State) (c : char) (rest : list char) :
  any_bracket_level st <= 0 ->
  fst (scan_indent 0 rest) > last_indent_level st + 1 ->
  newline_mode st c rest = Raise IndentationError.
Proof.
  intros Hb Hj. unfold newline_mode.
  destruct (scan_indent 0 rest) as [ind cs]. simpl in Hj.
  destruct (Z.gtb_spec (any_bracket_level st) 0); [lia|].
  destruct (Z.gtb_spec ind (last_indent_level st)); [|lia].
  destruct (Z.eqb_spec (last_indent_level st - ind) (-1)); [lia|].
  reflexivity.
Qed.

Lemma iteration_body (U : Unicode) (st st' : State) :
  iteration U st st' -> body U st = Ok st'.
Proof.
  intros H. destruct H.
  - reflexivity.
  - set (st := mkState (NL :: rest) a l ts).
    rewrite (body_newline U st rest eq_refl). unfold newline_mode.
    destruct (scan_indent 0 rest) as [ind cs]. simpl.
    destruct (Z.gtb_spec a 0); [reflexivity|lia].
  - set (st := mkState (NL :: rest) a l ts).
    rewrite (body_newline U st rest eq_refl).
    exact (newline_mode_outside st NL rest H H0).
  - exact (string_iteration U (mkState (q :: text ++ q :: rest) a l ts)
             q text rest H H0 eq_refl).
  - exact (body_symbol U (mkState (c :: rest) a l ts) c ty rest H eq_refl).
  - exact (body_integer U d (mkState (d ++ rest) a l ts) rest H0 H
             eq_refl H1).
  - exact (body_float U d1 d2
             (mkState (d1 ++ PERIOD_CHAR :: d2 ++ rest) a l ts) rest
             H0 H H1 eq_refl H2).
  - exact (body_word U c tl (mkState (c :: tl ++ rest) a l ts) rest
             H H0 H1 eq_refl H2).
Qed.

Lemma iteration_result (U : Unicode) (st st' x : State) :
  iteration U st x -> body U st = Ok st' -> iteration U st st'.
Proof.
  intros Hi Hb. rewrite (iteration_body U st x Hi) in Hb.
  inversion Hb; subst. exact Hi.
Qed.

Lemma body_iteration (U : Unicode) (st st' : State) :
  chars st <> [] -> body U st = Ok st' -> iteration U st st'.
Proof.
  intros Hne Hb. destruct st as [cs a l ts]. simpl in Hne.
  destruct cs as [|c rest]; [congruence|]. clear Hne.
  destruct (N.eqb_spec c SPACE) as [->|Hsp].
  { refine (iteration_result U _ _ _ _ Hb). constructor. }
  destruct (N.eqb_spec c NL) as [->|Hnl].
  { destruct (Z_gt_le_dec a 0) as [Ha|Ha].
    - refine (iteration_result U _ _ _ _ Hb). constructor. exact Ha.
    - destruct (Z_gt_le_dec (fst (scan_indent 0 rest)) (l + 1)) as [Hj|Hj].
      + exfalso.
        rewrite (body_newline U (mkState (NL :: rest) a l ts) rest eq_refl)
          in Hb.
        rewrite newline_mode_raise in Hb by assumption. discriminate.
      + refine (iteration_result U _ _ _ _ Hb).
        apply it_newline_outside; assumption. }
  destruct (is_quote c) eqn:Hq.
  { rewrite (body_quote U (mkState (c :: rest) a l ts) c rest Hq eq_refl)
      in Hb.
    apply string_mode_effect in Hb. simpl in Hb.
    destruct Hb as [text [Hn [Er Est]]].
    rewrite Est, Er. apply it_string; assumption. }
  destruct (token_map c) as [ty|] eqn:Htm.
  { refine (iteration_result U _ _ _ _ Hb). apply it_symbol. exact Htm. }
  assert (Hs : is_special c = false).
  { unfold is_special. rewrite Hq, Htm.
    apply N.eqb_neq in Hsp. apply N.eqb_neq in Hnl. rewrite Hsp, Hnl.
    reflexivity. }
  pose proof Hb as Hb'.
  rewrite (body_plain U (mkState (c :: rest) a l ts) c rest Hs eq_refl)
    in Hb'.
  destruct (isnumeric U c) eqn:En.
  { clear Hb'.
    destruct (numeric_span U (c :: rest)) as [d [r1 [E [Hd Hr1]]]].
    assert (Hdne : d <> []).
    { intros ->. simpl in E. subst r1. simpl in Hr1. rewrite En in Hr1.
      discriminate. }
    destruct (ends_int U r1) eqn:Hi.
    - rewrite E in *. refine (iteration_result U _ _ _ _ Hb).
      apply it_int; assumption.
    - destruct r1 as [|c1 r2]; [discriminate|]. simpl in Hi, Hr1.
      apply negb_true_iff in Hr1. rewrite Hr1 in Hi. simpl in Hi.
      apply negb_false_iff in Hi. apply N.eqb_eq in Hi. subst c1.
      destruct (numeric_span U r2) as [d2 [r3 [E2 [Hd2 Hr3]]]].
      rewrite E2 in E. rewrite E in *.
      refine (iteration_result U _ _ _ _ Hb).
      apply it_float; assumption. }
  destruct (isalpha U c) eqn:Ea; [|discriminate].
  clear Hb'.
  destruct (word_span U rest) as [tl [r [E [Htl Hr]]]].
  rewrite E in *. refine (iteration_result U _ _ _ _ Hb).
  apply it_word; assumption.
Qed.

(** A completed iteration of the main loop is one of eight things, and
    each of the eight is an iteration: a space skipped; a newline with
    its indentation dropped inside brackets; a newline scanned outside
    brackets; a string up to the next matching quote; a symbol of the
    symbol table; the longest run of numeric characters, as INT; such a
    run, a period and the longest run of numeric characters after it, as
    FLOAT; the longest word, with the type of the word. *)
Theorem body_is_iteration (U : Unicode) (st st' : State)
  (Hne : chars st <> []) :
  body U st = Ok st' <-> iteration U st st'.
Proof.
  split; [apply body_iteration; exact Hne|apply iteration_body].
Qed.

Lemma body_is_iteration_witness :
  body ascii_only (init (chars_of "7.25+x")) =
  Ok (mkState (chars_of "+x") 0 0 [mkToken (chars_of "7.25") FLOAT]) <->
  iteration ascii_only (init (chars_of "7.25+x"))
    (mkState (chars_of "+x") 0 0 [mkToken (chars_of "7.25") FLOAT]).
Proof.
  apply (body_is_iteration ascii_only (init (chars_of "7.25+x"))).
  discriminate.
Defined.

(** ** Invariants of the main loop *)

Lemma reaches_invariant (U : Unicode) (P : State -> Prop) :
  (forall st st', P st -> iteration U st st' -> P st') ->
  forall st st', reaches U st st' -> P st -> P st'.
Proof.
  intros Hstep st st' Hr. induction Hr as [st|st st1 st2 Hne Hb _ IH].
  - auto.
  - intros HP. apply IH. apply (Hstep st st1 HP).
    apply body_iteration; assumption.
Qed.

Lemma tokenize_invariant (U : Unicode) (P : State -> Prop)
  (source_code : str) (toks : list Token) :
  P (init source_code) ->
  (forall st st', P st -> iteration U st st' -> P st') ->
  tokenize U source_code = Ok toks ->
  exists st, final_state U source_code = Ok st /\
             toks = token_stream st ++ [EOF_token] /\ P st.
Proof.
  intros H0 Hstep H. unfold tokenize in H.
  destruct (final_state U source_code) as [st| |] eqn:Ef; simpl in H;
    try discriminate.
  inversion H; subst toks; clear H. exists st.
  split; [reflexivity|]. split; [reflexivity|].
  unfold final_state in Ef.
  apply (loop_invariant U P) with (fuel := length source_code)
                                  (st := init source_code);
    [|exact H0|exact Ef].
  intros s s' Hne HP Hb. apply (Hstep s s' HP).
  apply body_iteration; assumption.
Qed.

Lemma type_eqb_neq (a b : TokenType) : a <> b -> type_eqb a b = false.
Proof.
  intros H. unfold type_eqb. destruct (TokenType_eq_dec a b); [congruence|].
  reflexivity.
Qed.

Lemma type_eqb_refl (a : TokenType) : type_eqb a a = true.
Proof.
  unfold type_eqb. destruct (TokenType_eq_dec a a); [reflexivity|congruence].
Qed.

Lemma count_cons (ty : TokenType) (t : Token) (ts : list Token) :
  count ty (t :: ts) =
  (if type_eqb (type t) ty then 1 else 0) + count ty ts.
Proof.
  unfold count. cbn [filter].
  destruct (type_eqb (type t) ty); cbn [length]; lia.
Qed.

Lemma count_dedents (ty : TokenType) (n : nat) :
  ty <> DEDENT -> count ty (repeat (mkToken [] DEDENT) n) = 0.
Proof.
  intros Hty. induction n as [|n IH]; [reflexivity|].
  cbn [repeat]. rewrite count_cons, IH. cbn [type].
  rewrite type_eqb_neq by congruence. reflexivity.
Qed.

Lemma count_newline_tokens (ty : TokenType) (c : char) (l cand : Z) :
  ty <> NEWLINE -> ty <> INDENT -> ty <> DEDENT ->
  count ty (newline_tokens c l cand) = 0.
Proof.
  intros H1 H2 H3. unfold newline_tokens.
  rewrite count_cons. cbn [type]. rewrite type_eqb_neq by congruence.
  destruct (cand >? l).
  - rewrite count_cons. cbn [type]. rewrite type_eqb_neq by congruence.
    reflexivity.
  - rewrite count_dedents by exact H3. reflexivity.
Qed.

Lemma bracket_balance_app (a b : list Token) :
  bracket_balance (a ++ b) = bracket_balance a + bracket_balance b.
Proof. unfold bracket_balance. rewrite !count_app. lia. Qed.

Lemma bracket_balance_newline_tokens (c : char) (l cand : Z) :
  bracket_balance (newline_tokens c l cand) = 0.
Proof.
  unfold bracket_balance.
  rewrite !count_newline_tokens by discriminate. reflexivity.
Qed.

Lemma bracket_balance_symbol (c : char) (ty : TokenType) :
  token_map c = Some ty ->
  bracket_balance [mkToken [c] ty] = bracket_step c.
Proof.
  unfold token_map.
  repeat match goal with
         | |- context [(c =? ?k)%N] =>
             destruct (N.eqb_spec c k) as [->|_];
             [intros H; inversion H; reflexivity|]
         end.
  discriminate.
Qed.

Lemma bracket_balance_word (v : str) :
  bracket_balance [mkToken v (word_type v)] = 0.
Proof.
  unfold word_type.
  destruct (str_eqb v (chars_of "true") || str_eqb v (chars_of "false"));
    [reflexivity|].
  destruct (str_eqb v (chars_of "let")); [reflexivity|].
  destruct (str_eqb v (chars_of "mut")); reflexivity.
Qed.

Lemma iteration_bracket_balance (U : Unicode) (st st' : State) :
  bracket_balance (token_stream st) = any_bracket_level st ->
  iteration U st st' ->
  bracket_balance (token_stream st') = any_bracket_level st'.
Proof.
  intros HP Hi. destruct Hi; simpl in *; try exact HP;
    rewrite bracket_balance_app, HP.
  - rewrite bracket_balance_newline_tokens. lia.
  - change (bracket_balance [mkToken text STRING]) with 0. lia.
  - rewrite (bracket_balance_symbol c ty H). reflexivity.
  - change (bracket_balance [mkToken d INT]) with 0. lia.
  - change (bracket_balance [mkToken (d1 ++ PERIOD_CHAR :: d2) FLOAT]) with 0.
    lia.
  - rewrite bracket_balance_word. lia.
Qed.

(** The bracket level is the number of opening bracket tokens minus the
    number of closing bracket tokens scanned so far, whatever their kinds
    and their order: brackets are counted, not matched, brackets inside
    strings are not counted, and on success the level that remains need
    not be zero and can be negative. *)
Theorem bracket_level_is_balance :
  (forall (U : Unicode) (source_code : str) (toks : list Token),
     tokenize U source_code = Ok toks ->
     exists st, final_state U source_code = Ok st /\
                bracket_balance toks = any_bracket_level st) /\
  (forall U : Unicode,
     tokenize U (chars_of "(]}") =
     Ok [mkToken (chars_of "(") OPEN_PAREN;
         mkToken (chars_of "]") CLOSE_BRACKET;
         mkToken (chars_of "}") CLOSE_BRACE; EOF_token]).
Proof.
  split.
  - intros U src toks H.
    destruct (tokenize_invariant U
                (fun st => bracket_balance (token_stream st) =
                           any_bracket_level st) src toks eq_refl
                (iteration_bracket_balance U) H) as [st [Hf [-> HP]]].
    exists st. split; [exact Hf|].
    rewrite bracket_balance_app, HP.
    change (bracket_balance [EOF_token]) with 0. lia.
  - intros U. rewrite tokenize_ascii by reflexivity. vm_compute. reflexivity.
Qed.

Lemma bracket_level_is_balance_witness :
  exists st,
    final_state ascii_only (chars_of "f(a[1])) + '('") = Ok st /\
    bracket_balance
      [mkToken (chars_of "f") IDENTIFIER; mkToken (chars_of "(") OPEN_PAREN;
       mkToken (chars_of "a") IDENTIFIER;
       mkToken (chars_of "[") OPEN_BRACKET; mkToken (chars_of "1") INT;
       mkToken (chars_of "]") CLOSE_BRACKET;
       mkToken (chars_of ")") CLOSE_PAREN; mkToken (chars_of ")") CLOSE_PAREN;
       mkToken (chars_of "+") ADD; mkToken (chars_of "(") STRING;
       EOF_token] = any_bracket_level st.
Proof.
  apply (proj1 bracket_level_is_balance ascii_only).
  vm_compute. reflexivity.
Defined.

Lemma indent_balance_cons (t : Token) (ts : list Token) :
  indent_balance (t :: ts) = indent_balance [t] + indent_balance ts.
Proof. exact (indent_balance_app [t] ts). Qed.

Lemma indent_balance_newline_tokens (c : char) (l cand : Z) :
  cand <= l + 1 ->
  indent_balance (newline_tokens c l cand) = cand - l.
Proof.
  intros Hj. unfold newline_tokens. rewrite indent_balance_cons.
  change (indent_balance [mkToken [c] NEWLINE]) with 0.
  destruct (Z.gtb_spec cand l).
  - change (indent_balance [mkToken [] INDENT]) with 1. lia.
  - rewrite indent_balance_dedents. lia.
Qed.

(** No prefix of the tokens of a newline takes the balance below the
    candidate level or the current one. *)
Lemma newline_tokens_prefix (c : char) (l cand : Z) (n1 n2 : list Token) :
  0 <= cand -> 0 <= l ->
  newline_tokens c l cand = n1 ++ n2 -> 0 <= l + indent_balance n1.
Proof.
  intros Hc Hl E. unfold newline_tokens in E.
  destruct n1 as [|t n1]; [change (indent_balance []) with 0; lia|].
  simpl in E. inversion E as [[Et E']]; clear E.
  rewrite indent_balance_cons.
  change (indent_balance [mkToken [c] NEWLINE]) with 0.
  destruct (Z.gtb_spec cand l).
  - destruct n1 as [|u n1]; [change (indent_balance []) with 0; lia|].
    simpl in E'. inversion E' as [[Eu E'']].
    destruct n1; [|discriminate].
    change (indent_balance [mkToken [] INDENT]) with 1. lia.
  - pose proof (f_equal (@length Token) E') as Hlen.
    rewrite repeat_length, length_app in Hlen.
    apply repeat_eq_app in E'. destruct E' as [E1 _].
    rewrite <- E1, indent_balance_dedents. lia.
Qed.

Lemma single_token_prefix (t : Token) (n1 n2 : list Token) :
  indent_balance [t] = 0 -> [t] = n1 ++ n2 -> indent_balance n1 = 0.
Proof.
  intros Hb E. destruct n1 as [|u n1]; [reflexivity|].
  simpl in E. inversion E as [[Eu E']].
  destruct n1; [rewrite <- Eu; exact Hb|discriminate].
Qed.

Lemma prefix_balance_app (ts new : list Token) (l : Z) :
  (forall pre post, ts = pre ++ post -> 0 <= indent_balance pre) ->
  indent_balance ts = l ->
  (forall n1 n2, new = n1 ++ n2 -> 0 <= l + indent_balance n1) ->
  forall pre post, ts ++ new = pre ++ post -> 0 <= indent_balance pre.
Proof.
  intros Hts Hl Hnew pre post E.
  apply app_eq_app in E. destruct E as [m [[E1 E2]|[E1 E2]]].
  - apply (Hts pre m E1).
  - rewrite E1, indent_balance_app, Hl. apply (Hnew m post E2).
Qed.

Lemma indent_balance_word (v : str) :
  indent_balance [mkToken v (word_type v)] = 0.
Proof.
  unfold word_type.
  destruct (str_eqb v (chars_of "true") || str_eqb v (chars_of "false"));
    [reflexivity|].
  destruct (str_eqb v (chars_of "let")); [reflexivity|].
  destruct (str_eqb v (chars_of "mut")); reflexivity.
Qed.

Lemma indent_balance_symbol (c : char) (ty : TokenType) :
  token_map c = Some ty -> indent_balance [mkToken [c] ty] = 0.
Proof.
  intros H. destruct (token_map_plain c ty H) as [_ [H1 [H2 _]]].
  unfold indent_balance. rewrite !count_cons. cbn [type].
  rewrite !type_eqb_neq by assumption. reflexivity.
Qed.

Lemma indent_ok_single (st : State) (t : Token) (cs : list char) (a : Z) :
  indent_ok st -> indent_balance [t] = 0 ->
  indent_ok (mkState cs a (last_indent_level st) (token_stream st ++ [t])).
Proof.
  intros [H0 [Hb Hp]] Ht. split; [exact H0|]. split; simpl.
  - rewrite indent_balance_app, Hb, Ht. lia.
  - apply (prefix_balance_app _ [t] (last_indent_level st) Hp Hb).
    intros n1 n2 E. rewrite (single_token_prefix t n1 n2 Ht E). lia.
Qed.

Lemma iteration_indent_ok (U : Unicode) (st st' : State) :
  indent_ok st -> iteration U st st' -> indent_ok st'.
Proof.
  intros HP Hi. destruct Hi.
  - exact HP.
  - exact HP.
  - destruct HP as [Hl [Hb Hp]]. simpl in *.
    assert (Hc : 0 <= fst (scan_indent 0 rest)).
    { destruct (scan_indent_spec (length rest) rest 0 (le_n _))
        as [_ [_ Hc]]. exact Hc. }
    split; [exact Hc|]. split; simpl.
    + rewrite indent_balance_app, Hb, indent_balance_newline_tokens by lia.
      lia.
    + apply (prefix_balance_app _ _ l Hp Hb).
      intros n1 n2 E. apply (newline_tokens_prefix NL l _ n1 n2 Hc Hl E).
  - apply (indent_ok_single (mkState (q :: text ++ q :: rest) a l ts));
      [exact HP|reflexivity].
  - apply (indent_ok_single (mkState (c :: rest) a l ts));
      [exact HP|apply indent_balance_symbol; assumption].
  - apply (indent_ok_single (mkState (d ++ rest) a l ts));
      [exact HP|reflexivity].
  - apply (indent_ok_single
             (mkState (d1 ++ PERIOD_CHAR :: d2 ++ rest) a l ts));
      [exact HP|reflexivity].
  - apply (indent_ok_single (mkState (c :: tl ++ rest) a l ts));
      [exact HP|apply indent_balance_word].
Qed.

Lemma indent_ok_init (source_code : str) : indent_ok (init source_code).
Proof.
  split; [simpl; lia|]. split; [reflexivity|].
  intros pre post E. simpl in E. symmetry in E.
  apply app_eq_nil in E. destruct E as [-> _].
  change (indent_balance []) with 0. lia.
Qed.

(** The indentation level is never negative, and the output never closes
    more indentation than it has opened: in every prefix of the tokens
    there are at most as many DEDENT tokens as INDENT tokens. *)
Theorem dedents_never_exceed_indents (U : Unicode) (source_code : str)
  (toks : list Token)
  (Hok : tokenize U source_code = Ok toks) :
  (forall pre post, toks = pre ++ post ->
                    count DEDENT pre <= count INDENT pre) /\
  exists st, final_state U source_code = Ok st /\ 0 <= last_indent_level st.
Proof.
  destruct (tokenize_invariant U indent_ok source_code toks
              (indent_ok_init source_code) (iteration_indent_ok U) Hok)
    as [st [Hf [-> [Hl [Hb Hp]]]]].
  split; [|exists st; split; assumption].
  intros pre post E.
  assert (H : 0 <= indent_balance pre).
  { apply (prefix_balance_app (token_stream st) [EOF_token]
             (last_indent_level st) Hp Hb) with (post := post);
      [|exact E].
    intros n1 n2 E'.
    rewrite (single_token_prefix EOF_token n1 n2 eq_refl E'). lia. }
  unfold indent_balance in H. lia.
Qed.

Lemma dedents_never_exceed_indents_witness :
  (forall pre post,
     [mkToken (chars_of "a") IDENTIFIER; mkToken [NL] NEWLINE;
      mkToken [] INDENT; mkToken (chars_of "b") IDENTIFIER;
      mkToken [NL] NEWLINE; mkToken [] DEDENT; EOF_token] = pre ++ post ->
     count DEDENT pre <= count INDENT pre) /\
  exists st,
    final_state ascii_only
      (chars_of "a" ++ NL :: chars_of "    b" ++ [NL]) = Ok st /\
    0 <= last_indent_level st.
Proof.
  apply (dedents_never_exceed_indents ascii_only
           (chars_of "a" ++ NL :: chars_of "    b" ++ [NL])).
  vm_compute. reflexivity.
Defined.

Lemma follows_app (a b : list Token) :
  (forall q, indents_follow_newlines q b = true) ->
  forall p, indents_follow_newlines p a = true ->
            indents_follow_newlines p (a ++ b) = true.
Proof.
  intros Hb. induction a as [|t a IH]; intros p Ha; [apply Hb|].
  simpl in *. apply andb_prop in Ha. destruct Ha as [H1 H2].
  rewrite H1, (IH _ H2). reflexivity.
Qed.

Lemma follows_dedents (p : TokenType) (n : nat) :
  p = NEWLINE \/ p = DEDENT ->
  indents_follow_newlines p (repeat (mkToken [] DEDENT) n) = true.
Proof.
  revert p. induction n as [|n IH]; intros p Hp; [reflexivity|].
  simpl. rewrite IH by (right; reflexivity).
  destruct Hp as [-> | ->]; reflexivity.
Qed.

Lemma follows_newline_tokens (c : char) (l cand : Z) (q : TokenType) :
  indents_follow_newlines q (newline_tokens c l cand) = true.
Proof.
  unfold newline_tokens. simpl. destruct (cand >? l); [reflexivity|].
  apply follows_dedents. left. reflexivity.
Qed.

Lemma follows_single (t : Token) (q : TokenType) :
  type t <> INDENT -> type t <> DEDENT ->
  indents_follow_newlines q [t] = true.
Proof.
  intros H1 H2. simpl. destruct (type t); try reflexivity; congruence.
Qed.

Lemma word_type_cases (v : str) :
  (word_type v = BOOLEAN /\
   (v = chars_of "true" \/ v = chars_of "false")) \/
  (word_type v = LET /\ v = chars_of "let") \/
  (word_type v = MUT /\ v = chars_of "mut") \/
  (word_type v = IDENTIFIER /\ reserved_word v = false).
Proof.
  unfold word_type, reserved_word.
  destruct (str_eqb v (chars_of "true")) eqn:E1.
  { left. apply str_eqb_eq in E1. auto. }
  destruct (str_eqb v (chars_of "false")) eqn:E2.
  { left. apply str_eqb_eq in E2. auto. }
  destruct (str_eqb v (chars_of "let")) eqn:E3.
  { right. left. apply str_eqb_eq in E3. auto. }
  destruct (str_eqb v (chars_of "mut")) eqn:E4.
  { right. right. left. apply str_eqb_eq in E4. auto. }
  right. right. right. auto.
Qed.

Lemma word_type_plain (v : str) :
  word_type v <> INDENT /\ word_type v <> DEDENT /\
  word_type v <> NEWLINE /\ word_type v <> EOF.
Proof.
  destruct (word_type_cases v) as [[-> _]|[[-> _]|[[-> _]|[-> _]]]];
    repeat split; discriminate.
Qed.

Lemma iteration_follows (U : Unicode) (st st' : State) :
  indents_follow_newlines EOF (token_stream st) = true ->
  iteration U st st' ->
  indents_follow_newlines EOF (token_stream st') = true.
Proof.
  intros HP Hi. destruct Hi; simpl in *; try exact HP;
    apply follows_app; try exact HP; intros p.
  - apply follows_newline_tokens.
  - reflexivity.
  - destruct (token_map_plain c ty H) as [_ [Hx [Hy _]]].
    apply follows_single; assumption.
  - reflexivity.
  - reflexivity.
  - destruct (word_type_plain (c :: tl)) as [Hx [Hy _]].
    apply follows_single; assumption.
Qed.

Lemma follows_inv (pre : list Token) (t : Token) (post : list Token) :
  forall p, indents_follow_newlines p (pre ++ t :: post) = true ->
    (type t = INDENT -> last (map type pre) p = NEWLINE) /\
    (type t = DEDENT ->
     last (map type pre) p = NEWLINE \/ last (map type pre) p = DEDENT).
Proof.
  induction pre as [|u pre IH]; intros p H.
  - simpl in *. apply andb_prop in H. destruct H as [H _].
    split; intros E; rewrite E in H.
    + unfold type_eqb in H. destruct (TokenType_eq_dec p NEWLINE);
        [assumption|discriminate].
    + apply orb_prop in H. unfold type_eqb in H.
      destruct H as [H|H];
        [destruct (TokenType_eq_dec p NEWLINE)|
         destruct (TokenType_eq_dec p DEDENT)]; auto; discriminate.
  - simpl app in H. cbn [indents_follow_newlines] in H.
    apply andb_prop in H. destruct H as [_ H].
    specialize (IH (type u) H).
    replace (last (map type (u :: pre)) p)
      with (last (map type pre) (type u)); [exact IH|].
    simpl. destruct (map type pre) eqn:Em; [reflexivity|].
    clear. revert t0. induction l as [|x l IHl]; intros t0; [reflexivity|].
    simpl. destruct l; [reflexivity|]. apply (IHl x).
Qed.

Lemma last_type_predecessor (pre : list Token) (ty : TokenType) :
  ty <> EOF -> last (map type pre) EOF = ty ->
  exists pre' p, pre = pre' ++ [p] /\ type p = ty.
Proof.
  intros Hty Hl. destruct pre as [|t pre] using rev_ind.
  - simpl in Hl. congruence.
  - exists pre, t. split; [reflexivity|].
    rewrite map_app in Hl. cbn [map] in Hl. rewrite last_last in Hl.
    exact Hl.
Qed.

(** In the output, an INDENT token comes only right after a NEWLINE
    token, and a DEDENT token only right after a NEWLINE token or another
    DEDENT token. *)
Theorem indents_follow_a_newline (U : Unicode) (source_code : str)
  (toks pre post : list Token) (t : Token)
  (Hok : tokenize U source_code = Ok toks)
  (Hsplit : toks = pre ++ t :: post) :
  (type t = INDENT ->
   exists pre' p, pre = pre' ++ [p] /\ type p = NEWLINE) /\
  (type t = DEDENT ->
   exists pre' p, pre = pre' ++ [p] /\
                  (type p = NEWLINE \/ type p = DEDENT)).
Proof.
  destruct (tokenize_invariant U
              (fun st => indents_follow_newlines EOF (token_stream st) = true)
              source_code toks eq_refl (iteration_follows U) Hok)
    as [st [_ [E HP]]].
  assert (H : indents_follow_newlines EOF toks = true).
  { rewrite E. apply follows_app; [reflexivity|exact HP]. }
  rewrite Hsplit in H. apply follows_inv in H. destruct H as [Hi Hd].
  split; intros Et.
  - apply last_type_predecessor; [discriminate|auto].
  - destruct (Hd Et) as [Hn|Hn];
      apply last_type_predecessor in Hn; try discriminate;
      destruct Hn as [pre' [p [Ep Hp]]]; exists pre', p; auto.
Qed.

Lemma indents_follow_a_newline_witness :
  (type (mkToken [] INDENT) = INDENT ->
   exists pre' p,
     [mkToken (chars_of "a") IDENTIFIER; mkToken [NL] NEWLINE] = pre' ++ [p] /\
     type p = NEWLINE) /\
  (type (mkToken [] INDENT) = DEDENT ->
   exists pre' p,
     [mkToken (chars_of "a") IDENTIFIER; mkToken [NL] NEWLINE] = pre' ++ [p] /\
     (type p = NEWLINE \/ type p = DEDENT)).
Proof.
  apply (indents_follow_a_newline ascii_only
           (chars_of "a" ++ NL :: chars_of "    b")
           [mkToken (chars_of "a") IDENTIFIER; mkToken [NL] NEWLINE;
            mkToken [] INDENT; mkToken (chars_of "b") IDENTIFIER; EOF_token]
           [mkToken (chars_of "a") IDENTIFIER; mkToken [NL] NEWLINE]
           [mkToken (chars_of "b") IDENTIFIER; EOF_token]
           (mkToken [] INDENT)).
  - vm_compute. reflexivity.
  - reflexivity.
Defined.

Lemma iteration_no_newline (U : Unicode) (st st' : State) :
  (~ In NL (chars st) /\
   forall t, In t (token_stream st) -> is_structural t = false) ->
  iteration U st st' ->
  ~ In NL (chars st') /\
  forall t, In t (token_stream st') -> is_structural t = false.
Proof.
  intros [Hn Ht] Hi.
  assert (Hadd : forall ts u, (forall t, In t ts -> is_structural t = false) ->
                   is_structural u = false ->
                   forall t, In t (ts ++ [u]) -> is_structural t = false).
  { intros ts0 u H0 Hu t Hin. apply in_app_or in Hin.
    destruct Hin as [Hin|[<-|[]]]; auto. }
  destruct Hi; simpl in *.
  - split; [tauto|exact Ht].
  - exfalso. apply Hn. left. reflexivity.
  - exfalso. apply Hn. left. reflexivity.
  - split; [|apply Hadd; [exact Ht|reflexivity]].
    intros Hin. apply Hn. right. apply in_or_app. right. right. exact Hin.
  - split; [tauto|]. apply Hadd; [exact Ht|].
    destruct (token_map_plain c ty H) as [_ [Hx [Hy Hz]]].
    unfold is_structural. simpl. destruct ty; congruence.
  - split; [|apply Hadd; [exact Ht|reflexivity]].
    intros Hin. apply Hn. apply in_or_app. right. exact Hin.
  - split; [|apply Hadd; [exact Ht|reflexivity]].
    intros Hin. apply Hn. apply in_or_app. right. right.
    apply in_or_app. right. exact Hin.
  - split.
    + intros Hin. apply Hn. right. apply in_or_app. right. exact Hin.
    + apply Hadd; [exact Ht|].
      destruct (word_type_plain (c :: tl)) as [Hx [Hy [Hz _]]].
      unfold is_structural. simpl. destruct (word_type (c :: tl)); congruence.
Qed.

(** An input without a newline character gives no structural token: no
    NEWLINE, no INDENT and no DEDENT, whatever its spaces and brackets. *)
Theorem no_newline_no_structure (U : Unicode) (source_code : str)
  (toks : list Token) (t : Token)
  (Hnl : ~ In NL source_code)
  (Hok : tokenize U source_code = Ok toks)
  (Hin : In t toks) :
  is_structural t = false.
Proof.
  destruct (tokenize_invariant U
              (fun st => ~ In NL (chars st) /\
                         forall t, In t (token_stream st) ->
                                   is_structural t = false)
              source_code toks) as [st [_ [E [_ HP]]]].
  - split; [exact Hnl|intros u []].
  - apply iteration_no_newline.
  - exact Hok.
  - rewrite E in Hin. apply in_app_or in Hin.
    destruct Hin as [Hin|[<-|[]]]; [apply HP; exact Hin|reflexivity].
Qed.

Lemma no_newline_no_structure_witness :
  is_structural (mkToken (chars_of "    ") STRING) = false.
Proof.
  apply (no_newline_no_structure ascii_only
           (chars_of "        x = ('    ')")
           [mkToken (chars_of "x") IDENTIFIER; mkToken (chars_of "=") EQUALS;
            mkToken (chars_of "(") OPEN_PAREN;
            mkToken (chars_of "    ") STRING;
            mkToken (chars_of ")") CLOSE_PAREN; EOF_token]
           (mkToken (chars_of "    ") STRING)).
  - vm_compute. intros H.
    repeat (destruct H as [H|H]; [discriminate H|]). exact H.
  - vm_compute. reflexivity.
  - simpl. auto.
Defined.

(** ** Values and types *)

Lemma token_map_symbol (c : char) (ty : TokenType) :
  token_map c = Some ty -> is_symbol_type ty = true.
Proof.
  unfold token_map.
  repeat match goal with
         | |- context [if ?b then _ else _] => destruct b
         end;
    intros H; inversion H; reflexivity.
Qed.

Lemma token_shape_symbol (U : Unicode) (c : char) (ty : TokenType) :
  token_map c = Some ty -> token_shape U (mkToken [c] ty).
Proof.
  intros H. pose proof (token_map_symbol c ty H) as Hs.
  unfold token_shape. cbn [type value].
  destruct ty; try discriminate Hs; exists c; auto.
Qed.

Lemma token_shape_word (U : Unicode) (c : char) (tl : str) :
  isalpha U c = true -> isnumeric U c = false -> word_run U tl = true ->
  token_shape U (mkToken (c :: tl) (word_type (c :: tl))).
Proof.
  intros Hc Hn Htl. unfold token_shape. cbn [type value].
  destruct (word_type_cases (c :: tl))
    as [[-> Hv]|[[-> Hv]|[[-> Hv]|[-> Hv]]]]; try exact Hv.
  split; [exact Hv|]. exists c, tl. auto.
Qed.

Lemma token_shape_newline_tokens (U : Unicode) (l cand : Z) :
  Forall (token_shape U) (newline_tokens NL l cand).
Proof.
  unfold newline_tokens. constructor; [reflexivity|].
  destruct (cand >? l).
  - constructor; [reflexivity|constructor].
  - apply Forall_forall. intros t Hin. apply repeat_spec in Hin. subst t.
    reflexivity.
Qed.

Lemma iteration_shapes (U : Unicode) (st st' : State) :
  Forall (token_shape U) (token_stream st) ->
  iteration U st st' ->
  Forall (token_shape U) (token_stream st').
Proof.
  intros HP Hi. destruct Hi; simpl in *; try exact HP;
    apply Forall_app; (split; [exact HP|]).
  - apply token_shape_newline_tokens.
  - constructor; [exact I|constructor].
  - constructor; [apply token_shape_symbol; assumption|constructor].
  - constructor; [split; assumption|constructor].
  - constructor; [exists d1, d2; auto|constructor].
  - constructor; [apply token_shape_word; assumption|constructor].
Qed.

Lemma tokenize_shapes (U : Unicode) (source_code : str) (toks : list Token) :
  tokenize U source_code = Ok toks -> Forall (token_shape U) toks.
Proof.
  intros H.
  destruct (tokenize_invariant U
              (fun st => Forall (token_shape U) (token_stream st))
              source_code toks (Forall_nil _) (iteration_shapes U) H)
    as [st [_ [-> HP]]].
  apply Forall_app. split; [exact HP|].
  constructor; [reflexivity|constructor].
Qed.

(** In the output, the value of an INT token is a non-empty run of
    numeric characters, and the value of a FLOAT token is a non-empty run
    of numeric characters, one period, and a run of numeric characters
    that may be empty: never two periods, never a leading period. *)
Theorem number_token_values (U : Unicode) (source_code : str)
  (toks : list Token) (t : Token)
  (Hok : tokenize U source_code = Ok toks) (Hin : In t toks) :
  (type t = INT -> value t <> [] /\ numeric_run U (value t) = true) /\
  (type t = FLOAT ->
   exists d1 d2, value t = d1 ++ PERIOD_CHAR :: d2 /\ d1 <> [] /\
                 numeric_run U d1 = true /\ numeric_run U d2 = true /\
                 ~ In PERIOD_CHAR d1 /\ ~ In PERIOD_CHAR d2).
Proof.
  pose proof (tokenize_shapes U source_code toks Hok) as Hs.
  rewrite Forall_forall in Hs. specialize (Hs t Hin).
  unfold token_shape in Hs.
  assert (Hnp : forall d, numeric_run U d = true -> ~ In PERIOD_CHAR d).
  { intros d Hd Hp. unfold numeric_run in Hd. rewrite forallb_forall in Hd.
    specialize (Hd _ Hp). rewrite period_not_numeric in Hd. discriminate. }
  split; intros E; rewrite E in Hs; [exact Hs|].
  destruct Hs as [d1 [d2 [Ev [Hne [H1 H2]]]]].
  exists d1, d2. repeat split; auto.
Qed.

Lemma number_token_values_witness :
  (type (mkToken (chars_of "1.5") FLOAT) = INT ->
   value (mkToken (chars_of "1.5") FLOAT) <> [] /\
   numeric_run ascii_only (value (mkToken (chars_of "1.5") FLOAT)) = true) /\
  (type (mkToken (chars_of "1.5") FLOAT) = FLOAT ->
   exists d1 d2,
     value (mkToken (chars_of "1.5") FLOAT) = d1 ++ PERIOD_CHAR :: d2 /\
     d1 <> [] /\ numeric_run ascii_only d1 = true /\
     numeric_run ascii_only d2 = true /\
     ~ In PERIOD_CHAR d1 /\ ~ In PERIOD_CHAR d2).
Proof.
  apply (number_token_values ascii_only (chars_of "x = 1.5")
           [mkToken (chars_of "x") IDENTIFIER; mkToken (chars_of "=") EQUALS;
            mkToken (chars_of "1.5") FLOAT; EOF_token]).
  - vm_compute. reflexivity.
  - simpl. auto.
Defined.

(** In the output, BOOLEAN tokens are exactly the words true and false,
    LET tokens the word let and MUT tokens the word mut; an IDENTIFIER
    token is never one of these four words, and its value is an
    alphabetic character followed by alphanumeric characters and
    underscores. *)
Theorem word_token_values (U : Unicode) (source_code : str)
  (toks : list Token) (t : Token)
  (Hok : tokenize U source_code = Ok toks) (Hin : In t toks) :
  (type t = BOOLEAN ->
   value t = chars_of "true" \/ value t = chars_of "false") /\
  (type t = LET -> value t = chars_of "let") /\
  (type t = MUT -> value t = chars_of "mut") /\
  (type t = IDENTIFIER ->
   reserved_word (value t) = false /\
   exists c tl, value t = c :: tl /\ isalpha U c = true /\
                isnumeric U c = false /\ word_run U tl = true).
Proof.
  pose proof (tokenize_shapes U source_code toks Hok) as Hs.
  rewrite Forall_forall in Hs. specialize (Hs t Hin).
  unfold token_shape in Hs.
  split; [|split; [|split]]; intros E; rewrite E in Hs; exact Hs.
Qed.

Lemma word_token_values_witness :
  (type (mkToken (chars_of "lettuce") IDENTIFIER) = BOOLEAN ->
   value (mkToken (chars_of "lettuce") IDENTIFIER) = chars_of "true" \/
   value (mkToken (chars_of "lettuce") IDENTIFIER) = chars_of "false") /\
  (type (mkToken (chars_of "lettuce") IDENTIFIER) = LET ->
   value (mkToken (chars_of "lettuce") IDENTIFIER) = chars_of "let") /\
  (type (mkToken (chars_of "lettuce") IDENTIFIER) = MUT ->
   value (mkToken (chars_of "lettuce") IDENTIFIER) = chars_of "mut") /\
  (type (mkToken (chars_of "lettuce") IDENTIFIER) = IDENTIFIER ->
   reserved_word (value (mkToken (chars_of "lettuce") IDENTIFIER)) = false /\
   exists c tl,
     value (mkToken (chars_of "lettuce") IDENTIFIER) = c :: tl /\
     isalpha ascii_only c = true /\ isnumeric ascii_only c = false /\
     word_run ascii_only tl = true).
Proof.
  apply (word_token_values ascii_only (chars_of "let lettuce")
           [mkToken (chars_of "let") LET;
            mkToken (chars_of "lettuce") IDENTIFIER; EOF_token]).
  - vm_compute. reflexivity.
  - simpl. auto.
Defined.

(** In the output, a token of one of the fifteen symbol types has as its
    value the single character that [token_map] maps to its type. *)
Theorem symbol_token_values (U : Unicode) (source_code : str)
  (toks : list Token) (t : Token)
  (Hok : tokenize U source_code = Ok toks) (Hin : In t toks)
  (Hty : is_symbol_type (type t) = true) :
  exists c, value t = [c] /\ token_map c = Some (type t).
Proof.
  pose proof (tokenize_shapes U source_code toks Hok) as Hs.
  rewrite Forall_forall in Hs. specialize (Hs t Hin).
  unfold token_shape in Hs.
  destruct (type t); try discriminate Hty; exact Hs.
Qed.

Lemma symbol_token_values_witness :
  exists c, value (mkToken (chars_of "%") MODULO) = [c] /\
            token_map c = Some (type (mkToken (chars_of "%") MODULO)).
Proof.
  apply (symbol_token_values ascii_only (chars_of "7 % 2")
           [mkToken (chars_of "7") INT; mkToken (chars_of "%") MODULO;
            mkToken (chars_of "2") INT; EOF_token]).
  - vm_compute. reflexivity.
  - simpl. auto.
  - reflexivity.
Defined.

(** ** Exceptions *)

Lemma scan_string_raise (q : char) (cs : list char) :
  forall acc e, scan_string q acc cs = Raise e ->
                e = IndexError /\ ~ In q cs.
Proof.
  induction cs as [|c cs IH]; intros acc e H; simpl in H.
  - inversion H. split; [reflexivity|intros []].
  - destruct (N.eqb_spec c q) as [->|Hne]; simpl in H; [discriminate|].
    destruct (IH _ _ H) as [He Hn]. split; [exact He|].
    intros [Hc|Hin]; [congruence|auto].
Qed.

Lemma raises_body (U : Unicode) (st : State) (c : char) (rest : list char)
  (e : exn) :
  chars st = c :: rest -> raises U st c rest e -> body U st = Raise e.
Proof.
  intros Hc [[-> [-> [Hb Hj]]]|[[-> [Hq Hn]]|[-> [Hs [Hnum Hal]]]]].
  - rewrite (body_newline U st rest Hc).
    apply newline_mode_raise; assumption.
  - rewrite (body_quote U st c rest Hq Hc). unfold string_mode.
    rewrite (scan_string_open c rest [] Hn). reflexivity.
  - rewrite (body_plain U st c rest Hs Hc), Hnum, Hal. reflexivity.
Qed.

Lemma body_raises (U : Unicode) (st : State) (c : char) (rest : list char)
  (e : exn) :
  chars st = c :: rest -> body U st = Raise e -> raises U st c rest e.
Proof.
  intros Hc Hb.
  destruct (N.eqb_spec c SPACE) as [->|Hsp].
  { unfold body in Hb. rewrite Hc in Hb. discriminate. }
  destruct (N.eqb_spec c NL) as [->|Hnl].
  { rewrite (body_newline U st rest Hc) in Hb.
    destruct (Z_gt_le_dec (any_bracket_level st) 0) as [Ha|Ha].
    - unfold newline_mode in Hb. destruct (scan_indent 0 rest) as [ind cs].
      destruct (Z.gtb_spec (any_bracket_level st) 0); [discriminate|lia].
    - destruct (Z_gt_le_dec (fst (scan_indent 0 rest))
                  (last_indent_level st + 1)) as [Hj|Hj].
      + rewrite newline_mode_raise in Hb by assumption.
        inversion Hb. left. auto.
      + rewrite newline_mode_outside in Hb by assumption. discriminate. }
  destruct (is_quote c) eqn:Hq.
  { rewrite (body_quote U st c rest Hq Hc) in Hb. unfold string_mode in Hb.
    destruct (scan_string c [] rest) as [[s r]|e'|] eqn:Es; simpl in Hb.
    - apply scan_string_inv in Es.
      destruct Es as [text [rest' [_ [_ [_ ->]]]]]. discriminate.
    - inversion Hb; subst e'. apply scan_string_raise in Es.
      destruct Es as [-> Hn]. right. left. auto.
    - discriminate. }
  destruct (token_map c) as [ty|] eqn:Htm.
  { rewrite (body_symbol U st c ty rest Htm Hc) in Hb. discriminate. }
  assert (Hs : is_special c = false).
  { unfold is_special. rewrite Hq, Htm.
    apply N.eqb_neq in Hsp. apply N.eqb_neq in Hnl. rewrite Hsp, Hnl.
    reflexivity. }
  rewrite (body_plain U st c rest Hs Hc) in Hb.
  destruct (isnumeric U c) eqn:En.
  { unfold number_mode in Hb.
    destruct (scan_number U false [] (chars st)) as [[num pf] cs'].
    discriminate. }
  destruct (isalpha U c) eqn:Ea.
  { unfold word_mode in Hb.
    destruct (scan_word U [] (chars st)) as [v cs].
    destruct (str_eqb v (chars_of "true") || str_eqb v (chars_of "false"));
      [discriminate|].
    destruct (KEYWORDS v); discriminate. }
  inversion Hb. right. right. auto.
Qed.

(** tokenize raises an exception exactly when the main loop comes to
    stand at one of three places: a newline, at bracket level 0 or below,
    whose line is indented more than one unit deeper than the current
    level (IndentationError); a quote that no later character of the
    input matches (IndexError); a character that is neither special,
    numeric nor alphabetic (the generic exception, which carries that
    character). *)
Theorem tokenize_raises_iff (U : Unicode) (source_code : str) (e : exn) :
  tokenize U source_code = Raise e <->
  exists st c rest,
    reaches U (init source_code) st /\ chars st = c :: rest /\
    raises U st c rest e.
Proof.
  split.
  - intros H. apply tokenize_raise_inv in H.
    destruct H as [st [Hr [Hne Hb]]].
    destruct (chars st) as [|c rest] eqn:Hc; [congruence|].
    exists st, c, rest. split; [exact Hr|]. split; [exact Hc|].
    apply body_raises; assumption.
  - intros [st [c [rest [Hr [Hc Hraise]]]]].
    apply (reaches_raise U source_code st e Hr); [rewrite Hc; discriminate|].
    apply (raises_body U st c rest e Hc Hraise).
Qed.

Lemma tokenize_raises_iff_witness :
  tokenize ascii_only (chars_of ")" ++ NL :: chars_of "        x") =
  Raise IndentationError.
Proof.
  apply (proj2 (tokenize_raises_iff ascii_only
                  (chars_of ")" ++ NL :: chars_of "        x")
                  IndentationError)).
  exists (mkState (NL :: chars_of "        x") (-1) 0
            [mkToken (chars_of ")") CLOSE_PAREN]),
    NL, (chars_of "        x").
  split; [apply (steps_reaches ascii_only 1); vm_compute; reflexivity|].
  split; [reflexivity|].
  left. split; [reflexivity|]. split; [reflexivity|].
  split; [vm_compute; discriminate|vm_compute; reflexivity].
Defined.

(** The character that the generic exception carries is a character of
    the input, and one that is neither a space, a newline, a quote, a
    symbol of the symbol table, numeric nor alphabetic: a tab, for
    one, or an underscore. *)
Theorem unrecognized_character_is_in_source (U : Unicode)
  (source_code : str) (c : char)
  (H : tokenize U source_code = Raise (UnrecognizedCharacter c)) :
  In c source_code /\ is_special c = false /\
  isnumeric U c = false /\ isalpha U c = false.
Proof.
  apply tokenize_raise_inv in H. destruct H as [st [Hr [Hne Hb]]].
  destruct (chars st) as [|c' rest] eqn:Hc; [congruence|].
  destruct (body_raises U st c' rest _ Hc Hb)
    as [[He _]|[[He _]|[He [Hs [Hn Ha]]]]]; try discriminate He.
  inversion He; subst c'.
  split; [|auto].
  destruct (reaches_effect U _ _ Hr) as [pre [new [E _ _ _]]].
  simpl in E. rewrite E, Hc. apply in_or_app. right. left. reflexivity.
Qed.

Lemma unrecognized_character_is_in_source_witness :
  In 9%N (chars_of "x =" ++ 9%N :: chars_of "1") /\
  is_special 9%N = false /\
  isnumeric ascii_only 9%N = false /\ isalpha ascii_only 9%N = false.
Proof.
  apply (unrecognized_character_is_in_source ascii_only
           (chars_of "x =" ++ 9%N :: chars_of "1") 9%N).
  vm_compute. reflexivity.
Defined.
